(** * Axial point-group constructors of [netket.utils.group.axial]

    A shallow embedding of [netket/utils/group/axial.py] and the properties
    of its operation builders and group constructors.

    The module is written against numpy; the embedding is written against
    an interface [Scalar] with the numpy scalar operations the module calls.
    Facts about the shape of the results (lengths, order of the elements,
    which exception is raised, when the screw loop stops) are proved for
    every implementation of the interface.  The constructor of the
    operations, which validates the matrix it is given, is part of the
    embedding.  Two implementations are given:
    - [RScalar], exact real arithmetic, in which the geometric facts
      (orthogonality, closing of a rotation after a full turn) are proved;
      rounding is outside of these statements;
    - [Float64Scalar], IEEE binary64 arithmetic, in which the definitions
      run. *)

From Stdlib Require Import Floats.
From Stdlib Require Import ZArith List String Bool Lia.
From Stdlib Require Import Reals Lra RNsatz.
Import ListNotations.

Set Implicit Arguments.

(** ** Exceptions and results *)

Inductive exn : Type :=
| ValueError (msg : string)
| AssertionError
| ZeroDivisionError.

Inductive result (A : Type) : Type :=
| Ok (a : A)
| Raise (e : exn).

Arguments Ok {A} a.
Arguments Raise {A} e.

Definition bind {A B : Type} (r : result A) (k : A -> result B) : result B :=
  match r with
  | Ok a => k a
  | Raise e => Raise e
  end.

Declare Scope py_scope.
Delimit Scope py_scope with py.
Notation "x <- e ;; k" := (bind e (fun x => k))
  (at level 61, e at next level, right associativity) : py_scope.
Local Open Scope py_scope.

(** A list comprehension [[f i for i in l]]: the body is evaluated once per
    item, left to right, and the first exception aborts the comprehension.
    On an empty iterable the body is never evaluated. *)
Fixpoint comprehension {A B : Type} (f : A -> result B) (l : list A)
  : result (list B) :=
  match l with
  | [] => Ok []
  | i :: l' => b <- f i ;; bs <- comprehension f l' ;; Ok (b :: bs)
  end.

(** [range(a, b)] on Python integers. *)
Definition range (a b : Z) : list Z :=
  map (fun k => (a + Z.of_nat k)%Z) (seq 0 (Z.to_nat (b - a))).

(** ** The numpy scalar interface *)

Class Scalar : Type := {
  F : Type;
  of_int : Z -> F;            (* an integer literal or a Python int used as a float *)
  fadd : F -> F -> F;
  fsub : F -> F -> F;
  fmul : F -> F -> F;
  fdiv : F -> F -> F;
  fneg : F -> F;
  np_sqrt : F -> F;
  np_cos : F -> F;
  np_sin : F -> F;
  np_radians : F -> F;
  np_isclose : F -> F -> bool
}.

Declare Scope fl_scope.
Delimit Scope fl_scope with fl.
Notation "a + b" := (fadd a b) : fl_scope.
Notation "a - b" := (fsub a b) : fl_scope.
Notation "a * b" := (fmul a b) : fl_scope.
Notation "a / b" := (fdiv a b) : fl_scope.
Notation "- a" := (fneg a) : fl_scope.

Section LinearAlgebra.
Context {num : Scalar}.
Local Open Scope fl_scope.

(** ** 3-vectors and 3x3 matrices (numpy arrays of shape (3,) and (3,3)) *)

Record Vec3 : Type := mkV { vx : F; vy : F; vz : F }.
Record Mat3 : Type := mkM { row0 : Vec3; row1 : Vec3; row2 : Vec3 }.

Definition to_list (v : Vec3) : list F := [vx v; vy v; vz v].

(** [np.asarray] of a sequence already known to have three components. *)
Definition np_asarray (l : list F) : Vec3 :=
  mkV (nth 0 l (of_int 0)) (nth 1 l (of_int 0)) (nth 2 l (of_int 0)).

Definition vadd (u v : Vec3) : Vec3 :=
  mkV (vx u + vx v) (vy u + vy v) (vz u + vz v).
Definition vsub (u v : Vec3) : Vec3 :=
  mkV (vx u - vx v) (vy u - vy v) (vz u - vz v).
Definition vneg (u : Vec3) : Vec3 := mkV (- vx u) (- vy u) (- vz u).
(** scalar * array *)
Definition vscale (c : F) (v : Vec3) : Vec3 :=
  mkV (c * vx v) (c * vy v) (c * vz v).
(** array / scalar *)
Definition vdiv (v : Vec3) (c : F) : Vec3 :=
  mkV (vx v / c) (vy v / c) (vz v / c).

Definition np_dot (u v : Vec3) : F := vx u * vx v + vy u * vy v + vz u * vz v.

(** [np.linalg.norm] of a 1-d array: [sqrt(x.dot(x))]. *)
Definition np_linalg_norm (v : Vec3) : F := np_sqrt (np_dot v v).

Definition np_cross (u v : Vec3) : Vec3 :=
  mkV (vy u * vz v - vz u * vy v)
      (vz u * vx v - vx u * vz v)
      (vx u * vy v - vy u * vx v).

Definition np_outer (u v : Vec3) : Mat3 :=
  mkM (vscale (vx u) v) (vscale (vy u) v) (vscale (vz u) v).

Definition np_eye3 : Mat3 :=
  mkM (mkV (of_int 1) (of_int 0) (of_int 0))
      (mkV (of_int 0) (of_int 1) (of_int 0))
      (mkV (of_int 0) (of_int 0) (of_int 1)).

(** [np.cross(M, v)] broadcasts over the rows of [M]. *)
Definition cross_rows (M : Mat3) (v : Vec3) : Mat3 :=
  mkM (np_cross (row0 M) v) (np_cross (row1 M) v) (np_cross (row2 M) v).

Definition madd (A B : Mat3) : Mat3 :=
  mkM (vadd (row0 A) (row0 B)) (vadd (row1 A) (row1 B)) (vadd (row2 A) (row2 B)).
Definition msub (A B : Mat3) : Mat3 :=
  mkM (vsub (row0 A) (row0 B)) (vsub (row1 A) (row1 B)) (vsub (row2 A) (row2 B)).
Definition mneg (A : Mat3) : Mat3 :=
  mkM (vneg (row0 A)) (vneg (row1 A)) (vneg (row2 A)).
Definition mscale (c : F) (A : Mat3) : Mat3 :=
  mkM (vscale c (row0 A)) (vscale c (row1 A)) (vscale c (row2 A)).

Definition col0 (A : Mat3) : Vec3 := mkV (vx (row0 A)) (vx (row1 A)) (vx (row2 A)).
Definition col1 (A : Mat3) : Vec3 := mkV (vy (row0 A)) (vy (row1 A)) (vy (row2 A)).
Definition col2 (A : Mat3) : Vec3 := mkV (vz (row0 A)) (vz (row1 A)) (vz (row2 A)).

Definition transpose (A : Mat3) : Mat3 := mkM (col0 A) (col1 A) (col2 A).

(** [A @ v] *)
Definition matvec (A : Mat3) (v : Vec3) : Vec3 :=
  mkV (np_dot (row0 A) v) (np_dot (row1 A) v) (np_dot (row2 A) v).

(** [A @ B] *)
Definition matmul (A B : Mat3) : Mat3 :=
  let row r := mkV (np_dot r (col0 B)) (np_dot r (col1 B)) (np_dot r (col2 B)) in
  mkM (row (row0 A)) (row (row1 A)) (row (row2 A)).

(** [A] composed with itself [k] times. *)
Fixpoint mpow (A : Mat3) (k : nat) : Mat3 :=
  match k with
  | O => np_eye3
  | S k' => matmul A (mpow A k')
  end.

Definition orthogonal (W : Mat3) : Prop := matmul (transpose W) W = np_eye3.

(** ** Symmetry operations and groups

    [Identity()] of [_semigroup] and the values of class [PGSymmetry] of
    [_point_group]; [PointGroup(elems, ndim)] stores the list it is given. *)

Inductive Element : Type :=
| Identity
| PGSymmetry (W : Mat3) (w : option Vec3).

Record PointGroup : Type := mkPointGroup { elems : list Element; ndim : Z }.

(** [np.allclose(A, B)]: every entry of [A] is close to the entry of [B]. *)
Definition vec_allclose (u v : Vec3) : bool :=
  np_isclose (vx u) (vx v) && np_isclose (vy u) (vy v) && np_isclose (vz u) (vz v).

Definition np_allclose (A B : Mat3) : bool :=
  vec_allclose (row0 A) (row0 B) && vec_allclose (row1 A) (row1 B)
  && vec_allclose (row2 A) (row2 B).

Definition orthogonal_msg : string := "W must be an orthogonal matrix".

(** Modelled from the spec: the constructor [PGSymmetry(W, w)] belongs to
    the operation algebra, outside of the module.  It keeps the invariant
    that every linear part is orthogonal: it compares [W @ W.T] with the
    identity by [np.allclose] and raises a [ValueError] when they differ
    (as they do when an entry of [W] is [nan]). *)
Definition new_PGSymmetry (W : Mat3) (w : option Vec3) : result Element :=
  if np_allclose (matmul W (transpose W)) np_eye3
  then Ok (PGSymmetry W w)
  else Raise (ValueError orthogonal_msg).

Definition linear_part (g : Element) : Mat3 :=
  match g with
  | Identity => np_eye3
  | PGSymmetry W _ => W
  end.

Definition translation_part (g : Element) : option Vec3 :=
  match g with
  | Identity => None
  | PGSymmetry _ w => w
  end.

(** Python's [a / b] on two ints. *)
Definition py_truediv (a b : Z) : result F :=
  if (b =? 0)%Z then Raise ZeroDivisionError else Ok (of_int a / of_int b).

End LinearAlgebra.

(** ** The module [axial] *)

Module axial.
Section Axial.
Context {num : Scalar}.
Local Open Scope fl_scope.

(** The collaborators of the module that live outside of it: the
    near-integer test of [netket.utils.float] and the product [@] of two
    point groups. *)
Variable is_approx_int : F -> bool.
Variable group_matmul : PointGroup -> PointGroup -> PointGroup.

(** [cos(angle) * eye(3) + sin(angle) * cross(eye(3), axis)
     + (1 - cos(angle)) * outer(axis, axis)], the expression shared by
    [rotation], [screw] and [rotoreflection]. *)
Definition rodrigues (angle : F) (axis : Vec3) : Mat3 :=
  madd (madd (mscale (np_cos angle) np_eye3)
             (mscale (np_sin angle) (cross_rows np_eye3 axis)))
       (mscale (of_int 1 - np_cos angle) (np_outer axis axis)).

(** [np.eye(3) - 2 * np.outer(axis, axis)] *)
Definition householder (axis : Vec3) : Mat3 :=
  msub np_eye3 (mscale (of_int 2) (np_outer axis axis)).

Definition rotation (angle : F) (axis : Vec3) : result Element :=
  let angle := np_radians angle in
  let axis := vdiv axis (np_linalg_norm axis) in
  new_PGSymmetry (rodrigues angle axis) None.

Definition C (n : Z) (axis : Vec3) : result PointGroup :=
  rots <- comprehension
            (fun i => q <- py_truediv 360 n ;;
                      rotation (q * of_int i) axis)
            (range 1 n) ;;
  Ok (mkPointGroup ([Identity] ++ rots) 3).

Definition rotation_group := C.

Definition screw (angle : F) (trans origin : Vec3) : result Element :=
  let angle := np_radians angle in
  let axis := vdiv trans (np_linalg_norm trans) in
  let W := rodrigues angle axis in
  let w := vadd trans (matvec (msub np_eye3 W) origin) in
  new_PGSymmetry W (Some w).

(** The loop [for i in count(start=1)] of [screw_group], run for at most
    [fuel] iterations; [None] means that the loop is still running, and an
    exception raised by [screw] leaves the loop. *)
Fixpoint screw_group_loop (fuel : nat) (angle : F) (trans origin : Vec3)
         (i : Z) (out : list Element) : option (result (list Element)) :=
  match fuel with
  | O => None
  | S fuel' =>
      if is_approx_int (of_int i * angle / of_int 360) then Some (Ok out)
      else
        match screw (of_int i * angle) (vscale (of_int i) trans) origin with
        | Raise e => Some (Raise e)
        | Ok s => screw_group_loop fuel' angle trans origin (i + 1) (out ++ [s])
        end
  end.

Definition screw_group (fuel : nat) (angle : F) (trans origin : Vec3)
  : option (result PointGroup) :=
  match screw_group_loop fuel angle trans origin 1 [Identity] with
  | None => None
  | Some r => Some (out <- r ;; Ok (mkPointGroup out 3))
  end.

Definition inversion : result Element := new_PGSymmetry (mneg np_eye3) None.

Definition inversion_group : result PointGroup :=
  i <- inversion ;;
  Ok (mkPointGroup [Identity; i] 3).

Definition reflection_msg : string :=
  "The axis must be a 3 component vector.If you want reflections in 2 dimensions, use nk.utils.group.planar.reflection instead.".

Definition reflection (axis : list F) : result Element :=
  if negb (List.length axis =? 3)%nat then Raise (ValueError reflection_msg)
  else
    let axis := np_asarray axis in
    let axis := vdiv axis (np_linalg_norm axis) in
    new_PGSymmetry (householder axis) None.

Definition reflection_group (axis : list F) : result PointGroup :=
  r <- reflection axis ;;
  Ok (mkPointGroup [Identity; r] 3).

Definition glide (axis trans origin : Vec3) : result Element :=
  if negb (np_isclose (np_dot axis trans) (of_int 0)) then Raise AssertionError
  else
    let axis := vdiv axis (np_linalg_norm axis) in
    let W := householder axis in
    let w := vadd trans (matvec (msub np_eye3 W) origin) in
    new_PGSymmetry W (Some w).


Definition Ch (n : Z) (axis : Vec3) : result PointGroup :=
  a <- reflection_group (to_list axis) ;;
  b <- C n axis ;;
  Ok (group_matmul a b).

Definition Cv (n : Z) (axis axis2 : Vec3) : result PointGroup :=
  if negb (np_isclose (np_dot axis axis2) (of_int 0)) then Raise AssertionError
  else
    a <- reflection_group (to_list axis2) ;;
    b <- C n axis ;;
    Ok (group_matmul a b).

Definition pyramidal := Cv.

Definition rotoreflection (angle : F) (axis : Vec3) : result Element :=
  let angle := np_radians angle in
  let axis := vdiv axis (np_linalg_norm axis) in
  let rot_matrix := rodrigues angle axis in
  let refl_matrix := householder axis in
  new_PGSymmetry (matmul refl_matrix rot_matrix) None.

Definition S_op (n : Z) (axis : Vec3) (i : Z) : result Element :=
  if (i mod 2 =? 1)%Z
  then q <- py_truediv 360 n ;; rotoreflection (q * of_int i) axis
  else q <- py_truediv 360 n ;; rotation (q * of_int i) axis.

Definition S (n : Z) (axis : Vec3) : result PointGroup :=
  if (n mod 2 =? 1)%Z then Ch n axis
  else
    ops <- comprehension (S_op n axis) (range 1 n) ;;
    Ok (mkPointGroup ([Identity] ++ ops) 3).

Definition rotoreflection_group := S.

Definition D (n : Z) (axis axis2 : Vec3) : result PointGroup :=
  if negb (np_isclose (np_dot axis axis2) (of_int 0)) then Raise AssertionError
  else
    a <- C 2 axis2 ;;
    b <- C n axis ;;
    Ok (group_matmul a b).

Definition dihedral := D.

Definition z_axis : Vec3 := mkV (of_int 0) (of_int 0) (of_int 1).
Definition x_axis : Vec3 := mkV (of_int 1) (of_int 0) (of_int 0).

Definition cuboid_rotations : result PointGroup := D 2 z_axis x_axis.

Definition Dh (n : Z) (axis axis2 : Vec3) : result PointGroup :=
  a <- reflection_group (to_list axis) ;;
  b <- D n axis axis2 ;;
  Ok (group_matmul a b).

Definition prismatic := Dh.

Definition cuboid : result PointGroup := Dh 2 z_axis x_axis.

Definition Dd (n : Z) (axis axis2 : Vec3) : result PointGroup :=
  if negb (np_isclose (np_dot axis axis2) (of_int 0)) then Raise AssertionError
  else
    a <- reflection_group (to_list axis2) ;;
    b <- S (2 * n) axis ;;
    Ok (group_matmul a b).

Definition antiprismatic := Dd.

End Axial.
End axial.

(** ** Vocabulary of the statements *)

Section Vocabulary.
Context {num : Scalar}.
Local Open Scope fl_scope.

Definition zero3 : Vec3 := mkV (of_int 0) (of_int 0) (of_int 0).

(** The direction of a vector, as the builders compute it. *)
Definition unit_of (v : Vec3) : Vec3 := vdiv v (np_linalg_norm v).

(** The operations that the builders hand to the constructor: what each
    builder returns when the constructor accepts its matrix. *)
Definition rotation_op (angle : F) (axis : Vec3) : Element :=
  PGSymmetry (axial.rodrigues (np_radians angle) (unit_of axis)) None.

Definition reflection_op (axis : Vec3) : Element :=
  PGSymmetry (axial.householder (unit_of axis)) None.

Definition rotoreflection_op (angle : F) (axis : Vec3) : Element :=
  PGSymmetry (matmul (axial.householder (unit_of axis))
                     (axial.rodrigues (np_radians angle) (unit_of axis))) None.

Definition screw_op (angle : F) (trans origin : Vec3) : Element :=
  let W := axial.rodrigues (np_radians angle) (unit_of trans) in
  PGSymmetry W (Some (vadd trans (matvec (msub np_eye3 W) origin))).

Definition glide_op (axis trans origin : Vec3) : Element :=
  let W := axial.householder (unit_of axis) in
  PGSymmetry W (Some (vadd trans (matvec (msub np_eye3 W) origin))).

Definition inversion_op : Element := PGSymmetry (mneg np_eye3) None.

(** The element of index [i] handed to the constructor by the
    comprehension of [S]. *)
Definition S_elem (n : Z) (axis : Vec3) (i : Z) : Element :=
  if Z.odd i
  then rotoreflection_op (of_int 360 / of_int n * of_int i) axis
  else rotation_op (of_int 360 / of_int n * of_int i) axis.

(** The test and the element of iteration [i] of the loop of
    [screw_group]. *)
Definition closes_at (is_approx_int : F -> bool) (angle : F) (i : Z) : bool :=
  is_approx_int (of_int i * angle / of_int 360).

Definition nth_screw (angle : F) (trans origin : Vec3) (i : Z) : result Element :=
  axial.screw (of_int i * angle) (vscale (of_int i) trans) origin.

(** The cross-product operator matrix [[a]x]: [cross_matrix a @ v] is
    [a x v]. *)
Definition cross_matrix (a : Vec3) : Mat3 :=
  mkM (mkV (of_int 0) (- vz a) (vy a))
      (mkV (vz a) (of_int 0) (- vx a))
      (mkV (- vy a) (vx a) (of_int 0)).

(** The determinant of a 3x3 matrix, by the first row. *)
Definition det3 (A : Mat3) : F :=
  vx (row0 A) * (vy (row1 A) * vz (row2 A) - vz (row1 A) * vy (row2 A))
  - vy (row0 A) * (vx (row1 A) * vz (row2 A) - vz (row1 A) * vx (row2 A))
  + vz (row0 A) * (vx (row1 A) * vy (row2 A) - vy (row1 A) * vx (row2 A)).

(** The image of the point [p] under the affine map [x |-> W x + w]. *)
Definition affine (W : Mat3) (w : Vec3) (p : Vec3) : Vec3 :=
  vadd (matvec W p) w.

(** An operation that carries a translation part. *)
Definition has_translation (e : Element) : Prop :=
  exists W w, e = PGSymmetry W (Some w).

(** The number of elements of a group that was returned. *)
Definition group_size (r : result PointGroup) : option nat :=
  match r with
  | Ok g => Some (List.length (elems g))
  | Raise _ => None
  end.

Definition or_zero (w : option Vec3) : Vec3 :=
  match w with
  | Some v => v
  | None => zero3
  end.

(** Modelled from the spec: the operation algebra is outside of the
    module; the product of two operations is the composition of the two
    affine maps, with [Identity] neutral. *)
Definition compose (a b : Element) : Element :=
  match a, b with
  | Identity, _ => b
  | _, Identity => a
  | PGSymmetry W1 w1, PGSymmetry W2 w2 =>
      PGSymmetry (matmul W1 W2)
        (match w1, w2 with
         | None, None => None
         | _, _ => Some (vadd (or_zero w1) (matvec W1 (or_zero w2)))
         end)
  end.

(** Modelled from the spec: the group container is outside of the module;
    the elements of [A @ B] are all products of an element of [A] with an
    element of [B]. *)
Definition pairwise_products (A B : PointGroup) : PointGroup :=
  mkPointGroup
    (flat_map (fun a => map (compose a) (elems B)) (elems A))
    (ndim A).

End Vocabulary.

(** ** Exact real arithmetic as an implementation of the interface *)

Definition isclose_rtol : R := 1 / 100000.
Definition isclose_atol : R := 1 / 100000000.

(** [np.isclose(a, b)]: [|a - b| <= atol + rtol * |b|] with numpy's default
    tolerances. *)
Definition R_isclose (a b : R) : bool :=
  if Rle_dec (Rabs (a - b)) (isclose_atol + isclose_rtol * Rabs b)
  then true else false.

#[export] Instance RScalar : Scalar := {|
  F := R;
  of_int := IZR;
  fadd := Rplus;
  fsub := Rminus;
  fmul := Rmult;
  fdiv := Rdiv;
  fneg := Ropp;
  np_sqrt := sqrt;
  np_cos := cos;
  np_sin := sin;
  np_radians := fun x => (x * (PI / 180))%R;
  np_isclose := R_isclose
|}.

(** The integer nearest to [x] (which one at a tie does not change the
    distance to it). *)
Definition rint (x : R) : Z := up (x - / 2).

(** Modelled from the spec: [is_approx_int] of [netket.utils.float] is not
    part of the module; the spec describes it as the test that, given a real
    number and a tolerance, reports whether the number is numerically
    indistinguishable from an integer. *)
Definition is_approx_int_tol (atol : R) (x : R) : bool :=
  if Rle_dec (Rabs (x - IZR (rint x))) atol then true else false.

(** The bin of width [1/N], among the [N] that cut [[0, 1)], in which the
    fractional part of [i alpha] falls. *)
Definition bin (N : nat) (alpha : R) (i : nat) : nat :=
  Z.to_nat (Int_part (INR N * frac_part (INR i * alpha)))%R.

(** ** IEEE binary64 arithmetic as an implementation of the interface

    The arithmetic of numpy's [float64]: the four operations and the square
    root are the correctly rounded ones; cosine and sine come from the C
    library and are parameters.  A Python int converts to the nearest
    float. *)

Definition float_of_int (z : Z) : float :=
  SF2Prim (binary_normalize prec emax z 0 false).

(** [np.isclose] with the default tolerances [rtol = 1e-5], [atol = 1e-8]. *)
Definition float_isclose (a b : float) : bool :=
  (is_finite b &&
   (PrimFloat.abs (a - b)
    <=? 0x1.5798ee2308c3ap-27 + 0x1.4f8b588e368f1p-17 * PrimFloat.abs b))%float
  || (a =? b)%float.

Definition Float64Scalar (libm_cos libm_sin : float -> float) : Scalar := {|
  F := float;
  of_int := float_of_int;
  fadd := PrimFloat.add;
  fsub := PrimFloat.sub;
  fmul := PrimFloat.mul;
  fdiv := PrimFloat.div;
  fneg := PrimFloat.opp;
  np_sqrt := PrimFloat.sqrt;
  np_cos := libm_cos;
  np_sin := libm_sin;
  np_radians := fun x => (x * 0x1.1df46a2529d39p-6)%float;
  np_isclose := float_isclose
|}.

(** [np.rint]: below [2^52] adding and subtracting [2^52] rounds to the
    nearest integer, ties to even; from [2^52] on every float is an
    integer. *)
Definition float_rint (x : float) : float :=
  if (PrimFloat.abs x <? 0x1p52)%float then
    let r := (PrimFloat.abs x + 0x1p52 - 0x1p52)%float in
    if (x <? 0)%float then (- r)%float else r
  else x.

(** Modelled from the spec: the near-integer test of [netket.utils.float]
    on floats, as the distance to the nearest integer compared with a
    tolerance. *)
Definition float_is_approx_int (atol : float) (x : float) : bool :=
  (PrimFloat.abs (x - float_rint x) <=? atol)%float.

(** The 3x3 matrix all of whose entries are [nan]. *)
Definition nan3 (libm_cos libm_sin : float -> float)
  : @Mat3 (Float64Scalar libm_cos libm_sin) :=
  let row := @mkV (Float64Scalar libm_cos libm_sin) nan nan nan in
  mkM row row row.

(** * Properties that hold for every implementation of the interface *)

Section Ranges.

Lemma range_nil (a b : Z) : (b <= a)%Z -> range a b = [].
Proof.
  intros Hle. unfold range.
  replace (Z.to_nat (b - a)) with O by lia. reflexivity.
Qed.

Lemma range_cons (a b : Z) : (a < b)%Z -> range a b = a :: range (a + 1) b.
Proof.
  intros Hlt. unfold range.
  replace (Z.to_nat (b - a)) with (Datatypes.S (Z.to_nat (b - (a + 1)))) by lia.
  cbn [seq map]. f_equal.
  - lia.
  - rewrite <- seq_shift, map_map.
    apply map_ext. intros k. lia.
Qed.

Lemma length_range (a b : Z) : List.length (range a b) = Z.to_nat (b - a).
Proof. unfold range. now rewrite length_map, length_seq. Qed.

Lemma In_range (a b i : Z) : In i (range a b) <-> (a <= i < b)%Z.
Proof.
  unfold range. rewrite in_map_iff. split.
  - intros (k & <- & Hk). apply in_seq in Hk. lia.
  - intros Hi. exists (Z.to_nat (i - a)). split; [lia|].
    apply in_seq. lia.
Qed.

Lemma nth_map_range {A : Type} (f : Z -> A) (a b : Z) (j : nat) (d : A) :
  (j < Z.to_nat (b - a))%nat ->
  nth j (map f (range a b)) d = f (a + Z.of_nat j)%Z.
Proof.
  intros Hj. unfold range. rewrite map_map.
  rewrite (nth_indep _ d (f (a + Z.of_nat 0)%Z)) by now rewrite length_map, length_seq.
  rewrite (map_nth (fun k => f (a + Z.of_nat k)%Z)).
  now rewrite seq_nth.
Qed.

Lemma comprehension_map {A B : Type} (f : A -> result B) (g : A -> B) l :
  (forall i, In i l -> f i = Ok (g i)) ->
  comprehension f l = Ok (map g l).
Proof.
  induction l as [|i l IH]; intros Hf; cbn [comprehension map].
  - reflexivity.
  - rewrite (Hf i (or_introl eq_refl)). cbn [bind].
    rewrite IH by (intros j Hj; apply Hf; now right).
    reflexivity.
Qed.

Lemma comprehension_ext {A B : Type} (f g : A -> result B) l :
  (forall i, In i l -> f i = g i) ->
  comprehension f l = comprehension g l.
Proof.
  induction l as [|i l IH]; intros Hfg; cbn [comprehension].
  - reflexivity.
  - rewrite (Hfg i (or_introl eq_refl)).
    rewrite IH by (intros j Hj; apply Hfg; now right).
    reflexivity.
Qed.

(** Each element of a comprehension that returned is what the body
    returned on the item of the same position. *)
Lemma Forall2_map_ok {A B : Type} (f : A -> result B) (g : A -> B) l :
  (forall i, In i l -> f i = Ok (g i)) ->
  Forall2 (fun i e => f i = Ok e) l (map g l).
Proof.
  induction l as [|i l IH]; intros Hf; cbn [map]; constructor.
  - apply Hf. now left.
  - apply IH. intros j Hj. apply Hf. now right.
Qed.

End Ranges.

Section Shape.
Context {num : Scalar}.
Variable is_approx_int : F -> bool.
Variable group_matmul : PointGroup -> PointGroup -> PointGroup.
Local Open Scope fl_scope.

Lemma py_truediv_nonzero (a b : Z) :
  b <> 0%Z -> py_truediv a b = Ok (of_int a / of_int b).
Proof.
  intros Hb. unfold py_truediv.
  now destruct (Z.eqb_spec b 0).
Qed.

(** ** The constructor *)

Lemma new_PGSymmetry_Ok (W : Mat3) (w : option Vec3) (e : Element) :
  new_PGSymmetry W w = Ok e -> e = PGSymmetry W w.
Proof.
  unfold new_PGSymmetry. destruct (np_allclose _ _); [|discriminate].
  now intros [= <-].
Qed.

Lemma new_PGSymmetry_Raise (W : Mat3) (w : option Vec3) (e : exn) :
  new_PGSymmetry W w = Raise e -> e = ValueError orthogonal_msg.
Proof.
  unfold new_PGSymmetry. destruct (np_allclose _ _); [discriminate|].
  now intros [= <-].
Qed.

Lemma messages_differ : axial.reflection_msg <> orthogonal_msg.
Proof. discriminate. Qed.

(** ** What the builders hand to the constructor *)

Lemma rotation_constructs (angle : F) (axis : Vec3) :
  axial.rotation angle axis =
  new_PGSymmetry (axial.rodrigues (np_radians angle) (unit_of axis)) None.
Proof. reflexivity. Qed.

Lemma rotoreflection_constructs (angle : F) (axis : Vec3) :
  axial.rotoreflection angle axis =
  new_PGSymmetry (matmul (axial.householder (unit_of axis))
                         (axial.rodrigues (np_radians angle) (unit_of axis))) None.
Proof. reflexivity. Qed.

Lemma screw_constructs (angle : F) (trans origin : Vec3) :
  axial.screw angle trans origin =
  let W := axial.rodrigues (np_radians angle) (unit_of trans) in
  new_PGSymmetry W (Some (vadd trans (matvec (msub np_eye3 W) origin))).
Proof. reflexivity. Qed.

Lemma reflection_vec3 (axis : Vec3) :
  axial.reflection (to_list axis) =
  new_PGSymmetry (axial.householder (unit_of axis)) None.
Proof. destruct axis. reflexivity. Qed.

Lemma reflection_wrong_length (axis : list F) :
  List.length axis <> 3%nat ->
  axial.reflection axis = Raise (ValueError axial.reflection_msg).
Proof.
  intros Hlen. unfold axial.reflection.
  apply Nat.eqb_neq in Hlen. now rewrite Hlen.
Qed.

Lemma reflection_right_length (axis : list F) :
  List.length axis = 3%nat ->
  axial.reflection axis =
  new_PGSymmetry (axial.householder (unit_of (np_asarray axis))) None.
Proof.
  intros Hlen. unfold axial.reflection.
  apply Nat.eqb_eq in Hlen. now rewrite Hlen.
Qed.

Lemma glide_perpendicular (axis trans origin : Vec3) :
  np_isclose (np_dot axis trans) (of_int 0) = true ->
  axial.glide axis trans origin =
  let W := axial.householder (unit_of axis) in
  new_PGSymmetry W (Some (vadd trans (matvec (msub np_eye3 W) origin))).
Proof. intros Hperp. unfold axial.glide. now rewrite Hperp. Qed.

(** ** The assertions come first *)







(** ** [C] and [S] *)

Lemma C_empty_range (n : Z) (axis : Vec3) :
  (n <= 1)%Z -> axial.C n axis = Ok (mkPointGroup [Identity] 3).
Proof.
  intros Hn. unfold axial.C. now rewrite range_nil.
Qed.

Lemma C_accepted (n : Z) (axis : Vec3) :
  (forall angle, axial.rotation angle axis = Ok (rotation_op angle axis)) ->
  axial.C n axis =
  Ok (mkPointGroup
        (Identity ::
         map (fun i => rotation_op (of_int 360 / of_int n * of_int i) axis)
             (range 1 n)) 3).
Proof.
  intros Hrot. destruct (Z.eq_dec n 0) as [->|Hn].
  - now rewrite C_empty_range.
  - unfold axial.C.
    rewrite (comprehension_map _
               (fun i => rotation_op (of_int 360 / of_int n * of_int i) axis)).
    + reflexivity.
    + intros i _. rewrite py_truediv_nonzero by assumption. apply Hrot.
Qed.

Lemma odd_mod2 (i : Z) : (i mod 2 =? 1)%Z = Z.odd i.
Proof.
  rewrite Zmod_odd. now destruct (Z.odd i).
Qed.

Lemma S_odd (n : Z) (axis : Vec3) :
  Z.odd n = true ->
  axial.S group_matmul n axis = axial.Ch group_matmul n axis.
Proof.
  intros Hodd. unfold axial.S. now rewrite odd_mod2, Hodd.
Qed.

Lemma S_even_empty_range (n : Z) (axis : Vec3) :
  Z.odd n = false -> (n <= 1)%Z ->
  axial.S group_matmul n axis = Ok (mkPointGroup [Identity] 3).
Proof.
  intros Heven Hn. unfold axial.S. rewrite odd_mod2, Heven.
  now rewrite range_nil.
Qed.

(** For even [n] different from 0, [S] is the comprehension of its
    source text, whether the builders return or raise. *)
Lemma S_even_comprehension (n : Z) (axis : Vec3) :
  Z.odd n = false -> n <> 0%Z ->
  axial.S group_matmul n axis =
  (ops <- comprehension
            (fun i => if Z.odd i
                      then axial.rotoreflection (of_int 360 / of_int n * of_int i) axis
                      else axial.rotation (of_int 360 / of_int n * of_int i) axis)
            (range 1 n) ;;
   Ok (mkPointGroup (Identity :: ops) 3))%py.
Proof.
  intros Heven Hn. unfold axial.S. rewrite odd_mod2, Heven.
  rewrite (comprehension_ext (axial.S_op n axis)
             (fun i => if Z.odd i
                       then axial.rotoreflection (of_int 360 / of_int n * of_int i) axis
                       else axial.rotation (of_int 360 / of_int n * of_int i) axis)).
  - reflexivity.
  - intros i _. unfold axial.S_op.
    rewrite odd_mod2, py_truediv_nonzero by assumption.
    now destruct (Z.odd i).
Qed.

Lemma S_even_accepted (n : Z) (axis : Vec3) :
  Z.odd n = false ->
  (forall angle, axial.rotation angle axis = Ok (rotation_op angle axis)) ->
  (forall angle, axial.rotoreflection angle axis = Ok (rotoreflection_op angle axis)) ->
  axial.S group_matmul n axis =
  Ok (mkPointGroup (Identity :: map (S_elem n axis) (range 1 n)) 3).
Proof.
  intros Heven Hrot Hrr. destruct (Z.eq_dec n 0) as [->|Hn].
  - now rewrite S_even_empty_range.
  - rewrite S_even_comprehension by assumption.
    rewrite (comprehension_map _ (S_elem n axis)).
    + reflexivity.
    + intros i _. unfold S_elem. destruct (Z.odd i); [apply Hrr|apply Hrot].
Qed.

(** ** The loop of [screw_group] *)

Lemma screw_group_loop_closes angle trans origin (s : Z -> Element) :
  forall (d : nat) i out fuel,
    (forall j, (i <= j < i + Z.of_nat d)%Z ->
       closes_at is_approx_int angle j = false /\
       nth_screw angle trans origin j = Ok (s j)) ->
    closes_at is_approx_int angle (i + Z.of_nat d) = true ->
    (d < fuel)%nat ->
    axial.screw_group_loop is_approx_int fuel angle trans origin i out =
    Some (Ok (out ++ map s (range i (i + Z.of_nat d)))).
Proof.
  induction d as [|d IH]; intros i out fuel Hopen Hclose Hfuel;
    (destruct fuel as [|fuel]; [lia|]); cbn [axial.screw_group_loop];
    fold (closes_at is_approx_int angle i);
    fold (nth_screw angle trans origin i).
  - replace (i + Z.of_nat 0)%Z with i in * by lia.
    rewrite Hclose, range_nil by lia. cbn [map]. now rewrite app_nil_r.
  - destruct (Hopen i) as [Hi Hs]; [lia|]. rewrite Hi, Hs.
    rewrite (IH (i + 1)%Z); try lia.
    + rewrite (range_cons (a := i)) by lia. cbn [map].
      rewrite <- app_assoc. cbn [app].
      replace (i + 1 + Z.of_nat d)%Z with (i + Z.of_nat (Datatypes.S d))%Z by lia.
      reflexivity.
    + intros j Hj. apply Hopen. lia.
    + replace (i + 1 + Z.of_nat d)%Z with (i + Z.of_nat (Datatypes.S d))%Z by lia.
      exact Hclose.
Qed.

Lemma screw_group_loop_running angle trans origin :
  forall fuel i out,
    (forall j, (i <= j < i + Z.of_nat fuel)%Z ->
       closes_at is_approx_int angle j = false /\
       exists e, nth_screw angle trans origin j = Ok e) ->
    axial.screw_group_loop is_approx_int fuel angle trans origin i out = None.
Proof.
  induction fuel as [|fuel IH]; intros i out Hopen; cbn [axial.screw_group_loop].
  - reflexivity.
  - fold (closes_at is_approx_int angle i). fold (nth_screw angle trans origin i).
    destruct (Hopen i) as (Hi & e & He); [lia|]. rewrite Hi, He.
    apply IH. intros j Hj. apply Hopen. lia.
Qed.

Lemma screw_group_loop_extends angle trans origin :
  forall fuel i out res,
    axial.screw_group_loop is_approx_int fuel angle trans origin i out
    = Some (Ok res) ->
    exists ext, res = out ++ ext /\ Forall has_translation ext.
Proof.
  induction fuel as [|fuel IH]; intros i out res; cbn [axial.screw_group_loop].
  - discriminate.
  - destruct (is_approx_int _).
    + intros [= <-]. exists []. now rewrite app_nil_r.
    + destruct (axial.screw _ _ _) as [s|e] eqn:Hs; [|discriminate].
      intros Hrun. apply IH in Hrun. destruct Hrun as (ext & -> & Hext).
      eexists. rewrite <- app_assoc. split; [reflexivity|].
      constructor; [|exact Hext].
      rewrite screw_constructs in Hs. apply new_PGSymmetry_Ok in Hs.
      unfold has_translation. eauto.
Qed.

Lemma screw_group_loop_more_fuel angle trans origin :
  forall fuel i out res,
    axial.screw_group_loop is_approx_int fuel angle trans origin i out = Some res ->
    forall extra,
      axial.screw_group_loop is_approx_int (fuel + extra) angle trans origin i out
      = Some res.
Proof.
  induction fuel as [|fuel IH]; intros i out res; cbn [axial.screw_group_loop Nat.add].
  - discriminate.
  - destruct (is_approx_int _); [trivial|].
    destruct (axial.screw _ _ _); [apply IH|trivial].
Qed.

Lemma screw_group_closes angle trans origin (s : Z -> Element) (k : Z) :
  (1 <= k)%Z ->
  (forall j, (1 <= j < k)%Z ->
     closes_at is_approx_int angle j = false /\
     nth_screw angle trans origin j = Ok (s j)) ->
  closes_at is_approx_int angle k = true ->
  forall fuel, (Z.to_nat k <= fuel)%nat ->
    axial.screw_group is_approx_int fuel angle trans origin =
    Some (Ok (mkPointGroup (Identity :: map s (range 1 k)) 3)).
Proof.
  intros Hk Hopen Hclose fuel Hfuel. unfold axial.screw_group.
  rewrite (@screw_group_loop_closes angle trans origin s (Z.to_nat (k - 1))).
  - replace (1 + Z.of_nat (Z.to_nat (k - 1)))%Z with k by lia. reflexivity.
  - intros j Hj. apply Hopen. lia.
  - replace (1 + Z.of_nat (Z.to_nat (k - 1)))%Z with k by lia. exact Hclose.
  - lia.
Qed.

Lemma screw_group_running angle trans origin (fuel : nat) :
  (forall j, (1 <= j <= Z.of_nat fuel)%Z ->
     closes_at is_approx_int angle j = false /\
     exists e, nth_screw angle trans origin j = Ok e) ->
  axial.screw_group is_approx_int fuel angle trans origin = None.
Proof.
  intros Hopen. unfold axial.screw_group.
  rewrite screw_group_loop_running; [reflexivity|].
  intros j Hj. apply Hopen. lia.
Qed.

(** The first screw that the constructor rejects ends the loop. *)
Lemma screw_group_first_screw_rejected angle trans origin (e : exn) (fuel : nat) :
  closes_at is_approx_int angle 1 = false ->
  nth_screw angle trans origin 1 = Raise e ->
  (1 <= fuel)%nat ->
  axial.screw_group is_approx_int fuel angle trans origin = Some (Raise e).
Proof.
  intros Hopen Hraise Hfuel. unfold axial.screw_group.
  destruct fuel as [|fuel]; [lia|]. cbn [axial.screw_group_loop].
  fold (closes_at is_approx_int angle 1). fold (nth_screw angle trans origin 1).
  now rewrite Hopen, Hraise.
Qed.

End Shape.

Section Contracts.
Context {num : Scalar}.
Variable is_approx_int : F -> bool.
Variable group_matmul : PointGroup -> PointGroup -> PointGroup.
Local Open Scope fl_scope.

(** C10, as amended.  [C] does not validate [n]: for [n = 0] and for every
    negative [n] the range [1 .. n-1] is empty, the body of the
    comprehension (and with it the division [360 / n]) is never evaluated,
    and the call returns the one-element group [[Identity]]. *)
Theorem C_nonpositive_index (n : Z) (axis : Vec3) :
  (n <= 0)%Z ->
  range 1 n = [] /\ axial.C n axis = Ok (mkPointGroup [Identity] 3).
Proof.
  intros Hn. split.
  - apply range_nil. lia.
  - apply C_empty_range. lia.
Qed.

(** X20. Whenever [screw_group] returns, the group has dimension 3, its
    first element is [Identity], every other element carries a translation
    part, and more iterations allowed give the same group. *)
Theorem screw_group_result_shape fuel angle trans origin g :
  axial.screw_group is_approx_int fuel angle trans origin = Some (Ok g) ->
  ndim g = 3%Z /\
  (exists rest, elems g = Identity :: rest /\ Forall has_translation rest) /\
  forall fuel', (fuel <= fuel')%nat ->
    axial.screw_group is_approx_int fuel' angle trans origin = Some (Ok g).
Proof.
  unfold axial.screw_group.
  destruct (axial.screw_group_loop _ fuel _ _ _ _ _) as [[res|e]|] eqn:Hrun;
    try discriminate.
  cbn [bind]. intros [= <-]. split; [reflexivity|]. split.
  - apply screw_group_loop_extends in Hrun. destruct Hrun as (ext & -> & Hext).
    now exists ext.
  - intros fuel' Hle.
    replace fuel' with (fuel + (fuel' - fuel))%nat by lia.
    now rewrite (@screw_group_loop_more_fuel _ is_approx_int angle trans origin
                   fuel 1%Z [Identity] (Ok res) Hrun).
Qed.

End Contracts.

(** * Properties in IEEE arithmetic *)

Section IEEE.
Variables libm_cos libm_sin : float -> float.
Local Abbreviation f64 := (Float64Scalar libm_cos libm_sin).
Local Abbreviation fvec := (@mkV (Float64Scalar libm_cos libm_sin)).
Local Abbreviation nan_matrix := (nan3 libm_cos libm_sin).

(** ** The definitions run: the results of a few calls *)

Section Runs.
Local Open Scope float_scope.

Example float_of_int_360 : float_of_int 360 = 360.
Proof. vm_compute. reflexivity. Qed.

Example float_rint_examples :
  map float_rint [0.5; 1.5; 2.5; -0.5; -1.5; 2.25; -2.75; 0x1p60]
  = [0; 2; 2; -0; -2; 2; -3; 0x1p60].
Proof. vm_compute. reflexivity. Qed.

Example cross_rows_eye_123 :
  cross_rows np_eye3 (fvec 1 2 3) =
  mkM (fvec 0 (-3) 2) (fvec 3 0 (-1)) (fvec (-2) 1 0).
Proof. reflexivity. Qed.

Example reflection_z :
  axial.reflection (num := f64) [0; 0; 1]%float =
  Ok (PGSymmetry (mkM (fvec 1 0 0) (fvec 0 1 0) (fvec 0 0 (-1))) None).
Proof. reflexivity. Qed.

Example reflection_planar :
  axial.reflection (num := f64) [1; 0]%float =
  Raise (ValueError axial.reflection_msg).
Proof. reflexivity. Qed.

Example reflection_zero_axis :
  axial.reflection (num := f64) [0; 0; 0]%float =
  Raise (ValueError orthogonal_msg).
Proof. reflexivity. Qed.

Example inversion_runs :
  axial.inversion (num := f64) =
  Ok (PGSymmetry (mkM (fvec (-1) (-0) (-0)) (fvec (-0) (-1) (-0)) (fvec (-0) (-0) (-1)))
                 None).
Proof. reflexivity. Qed.

Example C_0 :
  axial.C (num := f64) 0 axial.z_axis = Ok (mkPointGroup [Identity] 3).
Proof. reflexivity. Qed.

Example Cv_same_axis :
  axial.Cv (num := f64) pairwise_products 4 axial.z_axis axial.z_axis =
  Raise AssertionError.
Proof. reflexivity. Qed.

Example glide_in_plane :
  axial.glide (num := f64) axial.z_axis axial.x_axis (fvec 0 0 0) =
  Ok (PGSymmetry (mkM (fvec 1 0 0) (fvec 0 1 0) (fvec 0 0 (-1)))
                 (Some (fvec 1 0 0))).
Proof. reflexivity. Qed.

Example glide_zero_axis :
  axial.glide (num := f64) (fvec 0 0 0) axial.x_axis (fvec 0 0 0) =
  Raise (ValueError orthogonal_msg).
Proof. reflexivity. Qed.

End Runs.

(** ** [nan] absorbs *)

Local Open Scope float_scope.

Lemma mul_nan_r (x : float) : (x * nan)%float = nan.
Proof.
  apply Prim2SF_inj. rewrite mul_spec.
  change (Prim2SF nan) with S754_nan.
  now destruct (Prim2SF x).
Qed.

Lemma mul_nan_l (x : float) : (nan * x)%float = nan.
Proof.
  apply Prim2SF_inj. rewrite mul_spec.
  change (Prim2SF nan) with S754_nan. reflexivity.
Qed.

Lemma add_nan_r (x : float) : (x + nan)%float = nan.
Proof.
  apply Prim2SF_inj. rewrite add_spec.
  change (Prim2SF nan) with S754_nan.
  now destruct (Prim2SF x) as [| | |[] ? ?].
Qed.

Lemma add_nan_l (x : float) : (nan + x)%float = nan.
Proof.
  apply Prim2SF_inj. rewrite add_spec.
  change (Prim2SF nan) with S754_nan. reflexivity.
Qed.

Lemma float_is_approx_int_nan (atol : float) :
  float_is_approx_int atol nan = false.
Proof.
  unfold float_is_approx_int. rewrite leb_spec.
  change (Prim2SF (PrimFloat.abs (nan - float_rint nan))) with S754_nan.
  reflexivity.
Qed.

Lemma nan_never_closes (is_approx_int : float -> bool) (i : Z) :
  is_approx_int nan = false ->
  closes_at (num := f64) is_approx_int nan i = false.
Proof.
  intros Hnan. unfold closes_at. cbn [fmul fdiv of_int Float64Scalar].
  rewrite mul_nan_r.
  change (nan / float_of_int 360)%float with nan. exact Hnan.
Qed.

(** ** Matrices with [nan] entries *)

Lemma nan_matrix_rejected (w : option (@Vec3 f64)) :
  new_PGSymmetry nan_matrix w = Raise (ValueError orthogonal_msg).
Proof. reflexivity. Qed.

Lemma unit_of_zero : unit_of (fvec 0 0 0) = fvec nan nan nan.
Proof. reflexivity. Qed.

Lemma householder_nan_axis : axial.householder (fvec nan nan nan) = nan_matrix.
Proof. reflexivity. Qed.

Ltac expose_rodrigues :=
  unfold axial.rodrigues, madd, mscale, vadd, vscale, nan3;
  cbn [row0 row1 row2 vx vy vz np_outer cross_rows np_cross np_eye3 vscale
       fadd fmul fsub of_int np_cos np_sin np_radians Float64Scalar].

Lemma rodrigues_nan_axis (angle : float) :
  axial.rodrigues (num := f64) angle (fvec nan nan nan) = nan_matrix.
Proof.
  expose_rodrigues.
  change (nan * nan)%float with nan.
  change (float_of_int 0 * nan - float_of_int 0 * nan)%float with nan.
  change (float_of_int 0 * nan - float_of_int 1 * nan)%float with nan.
  change (float_of_int 1 * nan - float_of_int 0 * nan)%float with nan.
  now rewrite !mul_nan_r, !add_nan_r.
Qed.

Lemma rodrigues_nan_angle (u : @Vec3 f64) :
  libm_cos nan = nan -> libm_sin nan = nan ->
  axial.rodrigues (num := f64) nan u = nan_matrix.
Proof.
  intros Hcos Hsin. destruct u as [x y z]. expose_rodrigues.
  rewrite Hcos, Hsin.
  change (float_of_int 1 - nan)%float with nan.
  now rewrite !mul_nan_l, !add_nan_l.
Qed.

Lemma matmul_nan_nan : matmul nan_matrix nan_matrix = nan_matrix.
Proof. reflexivity. Qed.

(** X22. In IEEE arithmetic the zero axis is rejected by the constructor,
    not by the builders: its direction is [0/0], the matrix handed to the
    constructor has only [nan] entries, and [rotation], [rotoreflection],
    [reflection], [reflection_group] and [screw] (for a zero [trans]) raise
    the [ValueError] of the constructor; [glide] on a zero axis raises it
    as soon as its assertion passes. *)
Theorem zero_axis_is_rejected_by_the_constructor
        (angle : float) (trans origin : @Vec3 f64) :
  axial.rotation (num := f64) angle (fvec 0 0 0) = Raise (ValueError orthogonal_msg) /\
  axial.rotoreflection (num := f64) angle (fvec 0 0 0)
    = Raise (ValueError orthogonal_msg) /\
  axial.reflection (num := f64) [0; 0; 0]%float = Raise (ValueError orthogonal_msg) /\
  axial.reflection_group (num := f64) [0; 0; 0]%float
    = Raise (ValueError orthogonal_msg) /\
  axial.screw (num := f64) angle (fvec 0 0 0) origin = Raise (ValueError orthogonal_msg) /\
  (np_isclose (np_dot (fvec 0 0 0) trans) (of_int 0) = true ->
   axial.glide (num := f64) (fvec 0 0 0) trans origin
     = Raise (ValueError orthogonal_msg)).
Proof.
  split; [|split; [|split; [|split; [|split]]]].
  - rewrite rotation_constructs, unit_of_zero, rodrigues_nan_axis.
    apply nan_matrix_rejected.
  - rewrite rotoreflection_constructs, unit_of_zero, rodrigues_nan_axis,
      householder_nan_axis, matmul_nan_nan.
    apply nan_matrix_rejected.
  - reflexivity.
  - reflexivity.
  - rewrite screw_constructs, unit_of_zero. cbv zeta.
    rewrite rodrigues_nan_axis. apply nan_matrix_rejected.
  - intros Hperp. rewrite glide_perpendicular by assumption.
    rewrite unit_of_zero. cbv zeta. rewrite householder_nan_axis.
    apply nan_matrix_rejected.
Qed.

(** X21. In IEEE arithmetic, with a near-integer test that rejects [nan]
    and a cosine and sine that return [nan] on [nan], [screw_group] on the
    angle [nan] ends at its first iteration with the [ValueError] of the
    constructor: the test fails and the first screw has a [nan] matrix. *)
Theorem screw_group_with_nan_angle_is_rejected
        (is_approx_int : float -> bool) (trans origin : @Vec3 f64) (fuel : nat) :
  is_approx_int nan = false ->
  libm_cos nan = nan -> libm_sin nan = nan ->
  (1 <= fuel)%nat ->
  axial.screw_group (num := f64) is_approx_int fuel nan trans origin =
  Some (Raise (ValueError orthogonal_msg)).
Proof.
  intros Hnan Hcos Hsin Hfuel.
  apply screw_group_first_screw_rejected; [now apply nan_never_closes| |assumption].
  unfold nth_screw. rewrite screw_constructs. cbv zeta.
  cbn [fmul of_int Float64Scalar]. rewrite mul_nan_r.
  change (np_radians (Scalar := f64) nan) with nan.
  rewrite rodrigues_nan_angle by assumption.
  apply nan_matrix_rejected.
Qed.

(** With a zero [trans], the first screw of [screw_group] is rejected. *)
Lemma screw_group_zero_trans (is_approx_int : float -> bool)
      (angle : float) (origin : @Vec3 f64) (fuel : nat) :
  closes_at (num := f64) is_approx_int angle 1 = false ->
  (1 <= fuel)%nat ->
  axial.screw_group (num := f64) is_approx_int fuel angle (fvec 0 0 0) origin =
  Some (Raise (ValueError orthogonal_msg)).
Proof.
  intros Hopen Hfuel.
  apply screw_group_first_screw_rejected; [assumption| |assumption].
  unfold nth_screw. rewrite screw_constructs. cbv zeta.
  change (unit_of (vscale (of_int 1) (fvec 0 0 0))) with (fvec nan nan nan).
  rewrite rodrigues_nan_axis. apply nan_matrix_rejected.
Qed.

End IEEE.
(** * Properties in exact real arithmetic *)

Section NearInteger.
Local Open Scope R_scope.

Lemma Rabs_le_between (a b : R) : Rabs a <= b -> - b <= a <= b.
Proof. unfold Rabs. destruct (Rcase_abs a); lra. Qed.

Lemma rint_half (x : R) : Rabs (x - IZR (rint x)) <= / 2.
Proof.
  unfold rint. destruct (archimed (x - / 2)) as [Hgt Hle].
  apply Rabs_le. lra.
Qed.

Lemma rint_nearest (x : R) (k : Z) :
  Rabs (x - IZR (rint x)) <= Rabs (x - IZR k).
Proof.
  pose proof (rint_half x) as Hhalf.
  destruct (Z.eq_dec k (rint x)) as [->|Hne]; [lra|].
  apply Rle_trans with (1 := Hhalf).
  apply Rabs_le_between in Hhalf.
  assert (Hk : (k <= rint x - 1 \/ rint x + 1 <= k)%Z) by lia.
  destruct Hk as [Hk|Hk]; apply IZR_le in Hk.
  - rewrite minus_IZR in Hk. rewrite Rabs_right; lra.
  - rewrite plus_IZR in Hk. rewrite Rabs_left1; lra.
Qed.

Lemma is_approx_int_tol_spec (atol x : R) :
  is_approx_int_tol atol x = true <-> exists k : Z, Rabs (x - IZR k) <= atol.
Proof.
  unfold is_approx_int_tol.
  destruct (Rle_dec _ _) as [Hle|Hgt]; split; try easy.
  - intros _. now exists (rint x).
  - intros [k Hk]. exfalso. apply Hgt.
    apply Rle_trans with (2 := Hk). apply rint_nearest.
Qed.

Lemma is_approx_int_tol_IZR (atol : R) (k : Z) :
  0 <= atol -> is_approx_int_tol atol (IZR k) = true.
Proof.
  intros Hatol. apply is_approx_int_tol_spec. exists k.
  rewrite Rminus_diag, Rabs_R0. exact Hatol.
Qed.

Lemma is_approx_int_tol_half (atol : R) :
  atol < / 2 -> is_approx_int_tol atol (/ 2) = false.
Proof.
  intros Hatol. apply not_true_is_false. intros Hclose.
  apply is_approx_int_tol_spec in Hclose. destruct Hclose as [k Hk].
  apply Rabs_le_between in Hk.
  assert (H0 : (0 < k)%Z) by (apply lt_IZR; lra).
  assert (H1 : (k < 1)%Z) by (apply lt_IZR; lra).
  lia.
Qed.

End NearInteger.

Ltac unfold_la :=
  cbv [axial.rodrigues axial.householder orthogonal matmul transpose madd msub mneg mscale
       np_outer cross_rows np_cross np_eye3 np_dot np_linalg_norm unit_of matvec vadd vsub vneg
       vscale vdiv
       col0 col1 col2 row0 row1 row2 vx vy vz
       RScalar fadd fsub fmul fdiv fneg of_int np_cos np_sin np_sqrt np_radians F] in *.

Lemma Vec3_eq {num : Scalar} (a b c a' b' c' : F) :
  a = a' -> b = b' -> c = c' -> mkV a b c = mkV a' b' c'.
Proof. now intros -> -> ->. Qed.

Lemma Mat3_eq {num : Scalar} (r0 r1 r2 r0' r1' r2' : Vec3) :
  r0 = r0' -> r1 = r1' -> r2 = r2' -> mkM r0 r1 r2 = mkM r0' r1' r2'.
Proof. now intros -> -> ->. Qed.

Tactic Notation "mat_eq" tactic3(tac) := apply Mat3_eq; apply Vec3_eq; cbv [F]; tac.

Section ExactAlgebra.
Local Open Scope R_scope.

Lemma rodrigues_orthogonal (a : R) (u : Vec3) :
  np_dot u u = 1 -> orthogonal (axial.rodrigues a u).
Proof.
  destruct u as [x y z]. unfold_la. intros Hu.
  pose proof (sin2_cos2 a) as Hsc. unfold Rsqr in Hsc.
  mat_eq nsatz.
Qed.

Lemma householder_orthogonal (u : Vec3) :
  np_dot u u = 1 -> orthogonal (axial.householder u).
Proof.
  destruct u as [x y z]. unfold_la. intros Hu.
  mat_eq nsatz.
Qed.

Lemma matmul_assoc (A B C : @Mat3 RScalar) :
  matmul (matmul A B) C = matmul A (matmul B C).
Proof.
  destruct A as [[? ? ?] [? ? ?] [? ? ?]], B as [[? ? ?] [? ? ?] [? ? ?]],
           C as [[? ? ?] [? ? ?] [? ? ?]].
  unfold_la. mat_eq ring.
Qed.

Lemma matmul_eye_l (A : @Mat3 RScalar) : matmul np_eye3 A = A.
Proof.
  destruct A as [[? ? ?] [? ? ?] [? ? ?]]. unfold_la. mat_eq ring.
Qed.

Lemma matmul_eye_r (A : @Mat3 RScalar) : matmul A np_eye3 = A.
Proof.
  destruct A as [[? ? ?] [? ? ?] [? ? ?]]. unfold_la. mat_eq ring.
Qed.

Lemma transpose_matmul (A B : @Mat3 RScalar) :
  transpose (matmul A B) = matmul (transpose B) (transpose A).
Proof.
  destruct A as [[? ? ?] [? ? ?] [? ? ?]], B as [[? ? ?] [? ? ?] [? ? ?]].
  unfold_la. mat_eq ring.
Qed.

Lemma orthogonal_matmul (A B : @Mat3 RScalar) :
  orthogonal A -> orthogonal B -> orthogonal (matmul A B).
Proof.
  unfold orthogonal. intros HA HB.
  rewrite transpose_matmul, matmul_assoc.
  rewrite <- (matmul_assoc (transpose A) A B), HA, matmul_eye_l.
  exact HB.
Qed.

Lemma rodrigues_matmul (a b : R) (u : Vec3) :
  np_dot u u = 1 ->
  matmul (axial.rodrigues a u) (axial.rodrigues b u) = axial.rodrigues (a + b) u.
Proof.
  destruct u as [x y z]. unfold_la. intros Hu.
  rewrite cos_plus, sin_plus.
  mat_eq nsatz.
Qed.

Lemma rodrigues_zero (u : Vec3) : axial.rodrigues 0 u = np_eye3.
Proof.
  destruct u as [x y z]. unfold_la. rewrite cos_0, sin_0. mat_eq ring.
Qed.

Lemma mpow_rodrigues (a : R) (u : Vec3) (k : nat) :
  np_dot u u = 1 ->
  mpow (axial.rodrigues a u) k = axial.rodrigues (INR k * a) u.
Proof.
  intros Hu. induction k as [|k IH].
  - cbn [mpow]. change (INR 0) with 0. rewrite Rmult_0_l. symmetry. apply rodrigues_zero.
  - cbn [mpow]. rewrite IH, rodrigues_matmul by assumption.
    f_equal. rewrite S_INR. ring.
Qed.

Lemma rodrigues_full_turn (u : Vec3) : axial.rodrigues (2 * PI) u = np_eye3.
Proof.
  destruct u as [x y z]. unfold_la. rewrite cos_2PI, sin_2PI. mat_eq ring.
Qed.

Lemma norm_pos (v : Vec3) : v <> zero3 -> 0 < np_linalg_norm v.
Proof.
  destruct v as [x y z]. intros Hv. unfold_la.
  apply sqrt_lt_R0.
  destruct (Req_dec x 0) as [->|Hx]; [|nra].
  destruct (Req_dec y 0) as [->|Hy]; [|nra].
  destruct (Req_dec z 0) as [->|Hz]; [|nra].
  now contradiction Hv.
Qed.

Lemma normalized_unit (v : Vec3) :
  v <> zero3 -> np_dot (unit_of v) (unit_of v) = 1.
Proof.
  intros Hv. pose proof (@norm_pos v Hv) as Hn.
  destruct v as [x y z]. unfold_la.
  set (s := x * x + y * y + z * z) in *.
  assert (Hs : sqrt s * sqrt s = s).
  { apply sqrt_def. unfold s. nra. }
  assert (Hne : sqrt s <> 0) by lra.
  replace (x / sqrt s * (x / sqrt s) + y / sqrt s * (y / sqrt s) + z / sqrt s * (z / sqrt s))
    with (s / (sqrt s * sqrt s)) by (unfold s; field; exact Hne).
  rewrite Hs. field. rewrite <- Hs. nra.
Qed.

End ExactAlgebra.


(** ** The constructor accepts the matrices of the builders *)

Section Accepted.
Local Open Scope R_scope.

Lemma R_isclose_refl (x : R) : R_isclose x x = true.
Proof.
  unfold R_isclose. rewrite Rminus_diag, Rabs_R0.
  destruct (Rle_dec _ _) as [|Hn]; [reflexivity|].
  exfalso. apply Hn. pose proof (Rabs_pos x).
  unfold isclose_atol, isclose_rtol. nra.
Qed.

Lemma np_allclose_refl (A : @Mat3 RScalar) : np_allclose A A = true.
Proof.
  unfold np_allclose, vec_allclose. cbn [np_isclose RScalar].
  now rewrite !R_isclose_refl.
Qed.

Lemma new_PGSymmetry_accepts (W : @Mat3 RScalar) (w : option Vec3) :
  matmul W (transpose W) = np_eye3 ->
  new_PGSymmetry W w = Ok (PGSymmetry W w).
Proof.
  intros Hrows. unfold new_PGSymmetry. now rewrite Hrows, np_allclose_refl.
Qed.

Lemma rodrigues_rows (a : R) (u : Vec3) :
  np_dot u u = 1 ->
  matmul (axial.rodrigues a u) (transpose (axial.rodrigues a u)) = np_eye3.
Proof.
  destruct u as [x y z]. unfold_la. intros Hu.
  pose proof (sin2_cos2 a) as Hsc. unfold Rsqr in Hsc.
  mat_eq nsatz.
Qed.

Lemma householder_rows (u : Vec3) :
  np_dot u u = 1 ->
  matmul (axial.householder u) (transpose (axial.householder u)) = np_eye3.
Proof.
  destruct u as [x y z]. unfold_la. intros Hu. mat_eq nsatz.
Qed.

Lemma matmul_rows (A B : @Mat3 RScalar) :
  matmul A (transpose A) = np_eye3 ->
  matmul B (transpose B) = np_eye3 ->
  matmul (matmul A B) (transpose (matmul A B)) = np_eye3.
Proof.
  intros HA HB. rewrite transpose_matmul, matmul_assoc.
  rewrite <- (matmul_assoc B), HB, matmul_eye_l. exact HA.
Qed.

Lemma inversion_rows :
  matmul (mneg (@np_eye3 RScalar)) (transpose (mneg np_eye3)) = np_eye3.
Proof. unfold_la. mat_eq ring. Qed.

Lemma rotation_returns (angle : R) (axis : Vec3) :
  axis <> zero3 -> axial.rotation angle axis = Ok (rotation_op angle axis).
Proof.
  intros Hax. rewrite rotation_constructs.
  apply new_PGSymmetry_accepts, rodrigues_rows. now apply normalized_unit.
Qed.

Lemma rotoreflection_returns (angle : R) (axis : Vec3) :
  axis <> zero3 -> axial.rotoreflection angle axis = Ok (rotoreflection_op angle axis).
Proof.
  intros Hax. pose proof (@normalized_unit axis Hax) as Hu.
  rewrite rotoreflection_constructs.
  apply new_PGSymmetry_accepts, matmul_rows.
  - now apply householder_rows.
  - now apply rodrigues_rows.
Qed.

Lemma reflection_returns (axis : Vec3) :
  axis <> zero3 -> axial.reflection (to_list axis) = Ok (reflection_op axis).
Proof.
  intros Hax. rewrite reflection_vec3.
  apply new_PGSymmetry_accepts, householder_rows. now apply normalized_unit.
Qed.

Lemma reflection_group_returns (axis : Vec3) :
  axis <> zero3 ->
  axial.reflection_group (to_list axis) =
  Ok (mkPointGroup [Identity; reflection_op axis] 3).
Proof.
  intros Hax. unfold axial.reflection_group. now rewrite reflection_returns.
Qed.

Lemma screw_returns (angle : R) (trans origin : Vec3) :
  trans <> zero3 -> axial.screw angle trans origin = Ok (screw_op angle trans origin).
Proof.
  intros Ht. rewrite screw_constructs. cbv zeta.
  apply new_PGSymmetry_accepts, rodrigues_rows. now apply normalized_unit.
Qed.

Lemma glide_returns (axis trans origin : Vec3) :
  axis <> zero3 -> np_isclose (np_dot axis trans) 0 = true ->
  axial.glide axis trans origin = Ok (glide_op axis trans origin).
Proof.
  intros Hax Hperp. rewrite glide_perpendicular by assumption. cbv zeta.
  apply new_PGSymmetry_accepts, householder_rows. now apply normalized_unit.
Qed.

Lemma inversion_returns : @axial.inversion RScalar = Ok inversion_op.
Proof. apply new_PGSymmetry_accepts, inversion_rows. Qed.

Lemma vscale_nonzero (c : R) (v : Vec3) :
  c <> 0 -> v <> zero3 -> vscale c v <> zero3.
Proof.
  intros Hc Hv Hzero. apply Hv. destruct v as [x y z].
  unfold vscale, zero3 in *. cbn [vx vy vz] in Hzero.
  injection Hzero as Hx Hy Hz. cbv [fmul of_int RScalar F] in *.
  apply Vec3_eq; cbv [of_int RScalar F]; nra.
Qed.

Lemma C_returns (n : Z) (axis : Vec3) :
  axis <> zero3 ->
  axial.C n axis =
  Ok (mkPointGroup
        (Identity :: map (fun i => rotation_op (360 / IZR n * IZR i) axis) (range 1 n))
        3).
Proof.
  intros Hax.
  rewrite (@C_accepted RScalar n axis)
    by (intros angle; now apply rotation_returns).
  reflexivity.
Qed.

Lemma S_even_returns (group_matmul : PointGroup -> PointGroup -> PointGroup)
      (n : Z) (axis : Vec3) :
  Z.odd n = false -> axis <> zero3 ->
  axial.S group_matmul n axis =
  Ok (mkPointGroup (Identity :: map (S_elem n axis) (range 1 n)) 3).
Proof.
  intros Heven Hax.
  rewrite (@S_even_accepted RScalar group_matmul n axis Heven).
  - reflexivity.
  - intros angle. now apply rotation_returns.
  - intros angle. now apply rotoreflection_returns.
Qed.

End Accepted.

(** ** The claims of the specification, in exact real arithmetic *)

Section ExactClaims.
Local Open Scope R_scope.
Local Abbreviation vec := (@mkV RScalar).

Lemma rotation_op_linear_part (angle : R) (axis : Vec3) :
  linear_part (rotation_op angle axis) =
  axial.rodrigues (angle * (PI / 180)) (unit_of axis).
Proof. reflexivity. Qed.

Lemma closes_at_exact (is_approx_int : R -> bool) (angle : R) (i : Z) :
  closes_at is_approx_int angle i = is_approx_int (IZR i * (angle / 360)).
Proof.
  unfold closes_at. cbn. f_equal. field.
Qed.

(** The first index at which a decidable test fires. *)
Lemma first_index (P : Z -> bool) (m : nat) :
  forall lo : Z,
    P (lo + Z.of_nat m)%Z = true ->
    exists k, (lo <= k <= lo + Z.of_nat m)%Z /\ P k = true /\
              forall j, (lo <= j < k)%Z -> P j = false.
Proof.
  induction m as [|m IH]; intros lo Hm.
  - exists lo. replace (lo + Z.of_nat 0)%Z with lo in Hm by lia.
    repeat split; try lia; try assumption.
  - destruct (P lo) eqn:Hlo.
    + exists lo. repeat split; try lia; try assumption.
    + destruct (IH (lo + 1)%Z) as (k & Hk & Pk & Hmin).
      { replace (lo + 1 + Z.of_nat m)%Z with (lo + Z.of_nat (Datatypes.S m))%Z by lia.
        exact Hm. }
      exists k. repeat split; try lia; try assumption.
      intros j Hj. destruct (Z.eq_dec j lo) as [->|Hne]; [assumption|].
      apply Hmin. lia.
Qed.

Lemma nth_screw_returns (angle : R) (trans origin : Vec3) (j : Z) :
  (1 <= j)%Z -> trans <> zero3 ->
  nth_screw angle trans origin j =
  Ok (screw_op (num := RScalar) (IZR j * angle) (vscale (num := RScalar) (IZR j) trans) origin).
Proof.
  intros Hj Ht. unfold nth_screw. apply screw_returns.
  apply vscale_nonzero; [|assumption].
  apply not_0_IZR. lia.
Qed.

Lemma screw_op_one (angle : R) (trans origin : Vec3) :
  screw_op (num := RScalar) (1 * angle) (vscale (num := RScalar) 1 trans) origin =
  screw_op angle trans origin.
Proof.
  assert (Ht : vscale (num := RScalar) 1 trans = trans).
  { destruct trans as [x y z]. unfold vscale. cbn [vx vy vz].
    apply Vec3_eq; cbv [fmul RScalar F]; lra. }
  rewrite Ht. now replace (1 * angle) with angle by lra.
Qed.

(** C3. For every integer [n >= 1] and every nonzero axis, [C(n, axis)]
    returns a group of exactly [n] elements: [Identity] first, then
    [rotation(360 i / n, axis)] for [i = 1 .. n-1]; and the linear part of
    [rotation(360 / n, axis)] composed with itself [n] times is the
    identity matrix. *)
Theorem C_is_cyclic (n : Z) (axis : Vec3) :
  (1 <= n)%Z -> axis <> zero3 ->
  exists rots R,
    Forall2 (fun i e => axial.rotation (360 * IZR i / IZR n) axis = Ok e)
            (range 1 n) rots /\
    axial.C n axis = Ok (mkPointGroup (Identity :: rots) 3) /\
    List.length (Identity :: rots) = Z.to_nat n /\
    axial.rotation (360 / IZR n) axis = Ok R /\
    mpow (linear_part R) (Z.to_nat n) = np_eye3.
Proof.
  intros Hn Hax.
  assert (Hn0 : IZR n <> 0) by (apply not_0_IZR; lia).
  exists (map (fun i => rotation_op (num := RScalar) (360 * IZR i / IZR n) axis) (range 1 n)),
         (rotation_op (num := RScalar) (360 / IZR n) axis).
  split; [|split; [|split; [|split]]].
  - apply Forall2_map_ok. intros i _. now apply rotation_returns.
  - rewrite C_returns by assumption. do 3 f_equal.
    apply map_ext. intros i. f_equal. field. exact Hn0.
  - cbn [List.length]. rewrite length_map, length_range. lia.
  - now apply rotation_returns.
  - rewrite rotation_op_linear_part, mpow_rodrigues by now apply normalized_unit.
    rewrite <- (rodrigues_full_turn (unit_of axis)).
    f_equal. rewrite INR_IZR_INZ, Z2Nat.id by lia. field. exact Hn0.
Qed.

(** With a nonzero [trans], every screw of the loop is returned, and the
    loop stops at the first index that passes the test. *)
Lemma screw_group_closes_exact (is_approx_int : R -> bool)
      (angle : R) (trans origin : Vec3) (k : Z) :
  trans <> zero3 -> (1 <= k)%Z ->
  is_approx_int (IZR k * (angle / 360)) = true ->
  (forall j, (1 <= j < k)%Z -> is_approx_int (IZR j * (angle / 360)) = false) ->
  forall fuel, (Z.to_nat k <= fuel)%nat ->
    axial.screw_group is_approx_int fuel angle trans origin =
    Some (Ok (mkPointGroup
                (Identity ::
                 map (fun i => screw_op (num := RScalar) (IZR i * angle)
                                 (vscale (num := RScalar) (IZR i) trans) origin)
                     (range 1 k)) 3)).
Proof.
  intros Ht Hk Pk Hmin fuel Hfuel.
  apply (@screw_group_closes RScalar is_approx_int angle trans origin
           (fun i => screw_op (num := RScalar) (IZR i * angle)
                       (vscale (num := RScalar) (IZR i) trans) origin) k);
    try assumption.
  - intros j Hj. split.
    + rewrite closes_at_exact. now apply Hmin.
    + apply nth_screw_returns; [lia|assumption].
  - now rewrite closes_at_exact.
Qed.

(** C2, as amended.  For every nonzero [trans]: if some positive integer
    multiple of [angle / 360] passes the near-integer test,
    [screw_group(angle, trans, origin)] terminates and, [k] being the
    smallest such integer, returns the [k]-element group
    [[Identity, screw(1 angle, 1 trans, origin), ...,
      screw((k-1) angle, (k-1) trans, origin)]].  In particular (for a test
    that rejects 1/2 and accepts 1) [screw_group(180, (0,0,1))] stops at
    [i = 2] and returns [[Identity, screw(180, (0,0,1))]]. *)
Theorem screw_group_closes_at_first_index (is_approx_int : R -> bool) :
  (forall (angle : R) (trans origin : Vec3),
      trans <> zero3 ->
      (exists m : Z, (1 <= m)%Z /\ is_approx_int (IZR m * (angle / 360)) = true) ->
      exists k : Z,
        (1 <= k)%Z /\
        is_approx_int (IZR k * (angle / 360)) = true /\
        (forall j, (1 <= j < k)%Z -> is_approx_int (IZR j * (angle / 360)) = false) /\
        exists ops,
          Forall2 (fun i e =>
                     axial.screw (IZR i * angle) (vscale (num := RScalar) (IZR i) trans) origin = Ok e)
                  (range 1 k) ops /\
          List.length (Identity :: ops) = Z.to_nat k /\
          forall fuel, (Z.to_nat k <= fuel)%nat ->
            axial.screw_group is_approx_int fuel angle trans origin =
            Some (Ok (mkPointGroup (Identity :: ops) 3))) /\
  (is_approx_int (/ 2) = false -> is_approx_int 1 = true ->
   exists s,
     axial.screw 180 (vec 0 0 1) (vec 0 0 0) = Ok s /\
     forall fuel, (2 <= fuel)%nat ->
       axial.screw_group is_approx_int fuel 180 (vec 0 0 1) (vec 0 0 0) =
       Some (Ok (mkPointGroup [Identity; s] 3))).
Proof.
  split.
  - intros angle trans origin Ht (m & Hm & Hclose).
    destruct (@first_index (fun i => is_approx_int (IZR i * (angle / 360)))
                           (Z.to_nat (m - 1)) 1%Z) as (k & Hk & Pk & Hmin).
    { replace (1 + Z.of_nat (Z.to_nat (m - 1)))%Z with m by lia. exact Hclose. }
    exists k. split; [lia|]. split; [exact Pk|]. split; [exact Hmin|].
    eexists. split; [|split].
    + apply Forall2_map_ok. intros i Hi. apply In_range in Hi.
      apply (@nth_screw_returns angle trans origin i); [lia|assumption].
    + cbn [List.length]. rewrite length_map, length_range. lia.
    + intros fuel Hfuel. apply screw_group_closes_exact; (assumption || lia).
  - intros Hhalf Hone.
    assert (Hz : vec 0 0 1 <> zero3) by (intros [= H]; lra).
    exists (screw_op (num := RScalar) 180 (vec 0 0 1) (vec 0 0 0)).
    split; [now apply screw_returns|].
    intros fuel Hfuel.
    rewrite (@screw_group_closes_exact is_approx_int 180 (vec 0 0 1) (vec 0 0 0) 2%Z);
      try assumption; try lia.
    + change (range 1 2) with [1%Z]. cbn [map]. now rewrite screw_op_one.
    + replace (2 * (180 / 360)) with 1 by lra. exact Hone.
    + intros j Hj. assert (j = 1%Z) as -> by lia.
      replace (1 * (180 / 360)) with (/ 2) by lra. exact Hhalf.
Qed.

(** C9. If [angle / 360] already passes the near-integer test, then for
    every [trans] and [origin] the loop of [screw_group] stops at [i = 1]
    before anything is appended, and the result is the one-element group
    [[Identity]]. *)
Theorem screw_group_of_closed_angle (is_approx_int : R -> bool)
        (angle : R) (trans origin : Vec3) :
  is_approx_int (angle / 360) = true ->
  forall fuel, (1 <= fuel)%nat ->
    axial.screw_group is_approx_int fuel angle trans origin =
    Some (Ok (mkPointGroup [Identity] 3)).
Proof.
  intros Hclose fuel Hfuel.
  rewrite (@screw_group_closes RScalar is_approx_int angle trans origin
             (fun _ => Identity) 1).
  - reflexivity.
  - lia.
  - intros j Hj. lia.
  - rewrite closes_at_exact. now rewrite Rmult_1_l.
  - cbn. lia.
Qed.

(** C4. For odd [n], [S(n, axis)] is [Ch(n, axis)].  For even [n >= 2],
    [S(n, axis)] is [Identity] followed, for [i = 1 .. n-1], by
    [rotoreflection(360 i / n, axis)] when [i] is odd and by
    [rotation(360 i / n, axis)] when [i] is even: it is that list whenever
    the builders return (as they do on a nonzero axis), and it raises what
    the first failing builder raises. *)
Theorem S_alternates (group_matmul : PointGroup -> PointGroup -> PointGroup)
        (n : Z) (axis : Vec3) :
  (Z.odd n = true ->
   axial.S group_matmul n axis = axial.Ch group_matmul n axis) /\
  (Z.even n = true -> (2 <= n)%Z ->
   axial.S group_matmul n axis =
   (ops <- comprehension
             (fun i => if Z.odd i
                       then axial.rotoreflection (360 * IZR i / IZR n) axis
                       else axial.rotation (360 * IZR i / IZR n) axis)
             (range 1 n) ;;
    Ok (mkPointGroup (Identity :: ops) 3))%py) /\
  (Z.even n = true -> (2 <= n)%Z -> axis <> zero3 ->
   exists ops,
     Forall2 (fun i e =>
                (if Z.odd i
                 then axial.rotoreflection (360 * IZR i / IZR n) axis
                 else axial.rotation (360 * IZR i / IZR n) axis) = Ok e)
             (range 1 n) ops /\
     List.length (Identity :: ops) = Z.to_nat n /\
     axial.S group_matmul n axis = Ok (mkPointGroup (Identity :: ops) 3)).
Proof.
  assert (Hangle : forall i, IZR n <> 0 ->
            (@of_int RScalar 360 / @of_int RScalar n * @of_int RScalar i)%fl
            = 360 * IZR i / IZR n).
  { intros i Hn0. cbv [fmul fdiv of_int RScalar F]. field. exact Hn0. }
  split; [apply S_odd|]. split.
  - intros Heven Hn.
    assert (Hn0 : IZR n <> 0) by (apply not_0_IZR; lia).
    rewrite S_even_comprehension; [|now rewrite <- Z.negb_even, Heven|lia].
    f_equal. apply comprehension_ext. intros i _.
    now rewrite Hangle.
  - intros Heven Hn Hax.
    assert (Hn0 : IZR n <> 0) by (apply not_0_IZR; lia).
    exists (map (S_elem n axis) (range 1 n)). split; [|split].
    + apply Forall2_map_ok. intros i _. unfold S_elem.
      rewrite Hangle by assumption.
      destruct (Z.odd i); [now apply rotoreflection_returns|now apply rotation_returns].
    + cbn [List.length]. rewrite length_map, length_range. lia.
    + apply S_even_returns; [now rewrite <- Z.negb_even, Heven|assumption].
Qed.

Lemma rodrigues_fixes_axis (a : R) (u : Vec3) :
  np_dot u u = 1 -> matvec (axial.rodrigues a u) u = u.
Proof.
  destruct u as [x y z]. unfold_la. intros Hu.
  apply Vec3_eq; cbv [F]; nsatz.
Qed.

Lemma matvec_vscale (W : Mat3) (c : R) (v : Vec3) :
  matvec W (vscale c v) = vscale c (matvec W v).
Proof.
  destruct W as [[? ? ?] [? ? ?] [? ? ?]], v as [x y z].
  unfold_la. apply Vec3_eq; cbv [F]; ring.
Qed.

Lemma vscale_normalized (v : Vec3) :
  v <> zero3 -> vscale (np_linalg_norm v) (unit_of v) = v.
Proof.
  intros Hv. pose proof (@norm_pos v Hv) as Hn.
  destruct v as [x y z]. unfold_la.
  apply Vec3_eq; cbv [F]; field; lra.
Qed.

Lemma matvec_zero (W : Mat3) : matvec W zero3 = zero3.
Proof.
  destruct W as [[? ? ?] [? ? ?] [? ? ?]]. unfold zero3. unfold_la.
  apply Vec3_eq; cbv [F]; ring.
Qed.

Lemma vadd_zero_r (v : Vec3) : vadd v zero3 = v.
Proof.
  destruct v as [x y z]. unfold zero3. unfold_la. apply Vec3_eq; cbv [F]; ring.
Qed.

Lemma cross_rows_eye (a : Vec3) : cross_rows np_eye3 a = cross_matrix a.
Proof.
  destruct a as [x y z]. unfold cross_matrix. unfold_la. mat_eq ring.
Qed.

Lemma unit_fixed_of_axis_fixed (W : Mat3) (v : Vec3) :
  v <> zero3 -> matvec W (unit_of v) = unit_of v -> matvec W v = v.
Proof.
  intros Hv Hfix.
  assert (Hscale : vscale (np_linalg_norm v) (unit_of v) = v)
    by now apply vscale_normalized.
  set (u := unit_of v) in *. set (n := np_linalg_norm v) in *.
  clearbody u n. subst v. now rewrite matvec_vscale, Hfix.
Qed.

(** C8. For every angle, nonzero [trans] and [origin], the linear part [W]
    of [screw(angle, trans, origin)] is the Rodrigues rotation
    [cos t I + sin t [a]x + (1 - cos t) (a (x) a)] by [angle] about the
    normalized direction [a] of [trans] (it leaves [trans] fixed), and the
    translation part is [trans + (I - W) origin]; with the origin at
    [(0,0,0)] the translation part is [trans] itself. *)
Theorem screw_rotation_and_translation (angle : R) (trans origin : Vec3) :
  trans <> zero3 ->
  let a := vdiv trans (np_linalg_norm trans) in
  let theta := angle * (PI / 180) in
  let W := madd (madd (mscale (cos theta) np_eye3)
                      (mscale (sin theta) (cross_matrix a)))
                (mscale (1 - cos theta) (np_outer a a)) in
  axial.screw angle trans origin =
    Ok (PGSymmetry W (Some (vadd trans (matvec (msub np_eye3 W) origin)))) /\
  matvec W trans = trans /\
  axial.screw angle trans zero3 = Ok (PGSymmetry W (Some trans)).
Proof.
  intros Ht a theta W.
  assert (HW : W = axial.rodrigues theta (unit_of trans)).
  { unfold W, axial.rodrigues. now rewrite cross_rows_eye. }
  split; [|split].
  - rewrite HW, screw_returns by assumption. reflexivity.
  - rewrite HW. apply unit_fixed_of_axis_fixed; [assumption|].
    apply rodrigues_fixes_axis. now apply normalized_unit.
  - rewrite HW, screw_returns by assumption. unfold screw_op. cbv zeta.
    rewrite matvec_zero, vadd_zero_r. reflexivity.
Qed.

Lemma inversion_orthogonal : orthogonal (linear_part (@inversion_op RScalar)).
Proof.
  unfold inversion_op, linear_part. unfold_la. mat_eq ring.
Qed.

(** C5. For every angle and every nonzero axis (nonzero [trans] for
    [screw]), the linear part [W] built by [rotation], [reflection],
    [rotoreflection], [inversion], [screw] and [glide] is orthogonal: the
    transpose of [W] times [W] is the identity matrix. *)
Theorem linear_parts_are_orthogonal (angle : R) (axis trans gtrans origin : Vec3) :
  axis <> zero3 -> trans <> zero3 ->
  (exists r, axial.rotation angle axis = Ok r /\ orthogonal (linear_part r)) /\
  (exists r, axial.reflection (to_list axis) = Ok r /\ orthogonal (linear_part r)) /\
  (exists r, axial.rotoreflection angle axis = Ok r /\ orthogonal (linear_part r)) /\
  (exists r, @axial.inversion RScalar = Ok r /\ orthogonal (linear_part r)) /\
  (exists r, axial.screw angle trans origin = Ok r /\ orthogonal (linear_part r)) /\
  (forall g, axial.glide axis gtrans origin = Ok g -> orthogonal (linear_part g)) /\
  (np_isclose (np_dot axis gtrans) 0 = true ->
   exists g, axial.glide axis gtrans origin = Ok g /\ orthogonal (linear_part g)).
Proof.
  intros Hax Htr.
  pose proof (@normalized_unit axis Hax) as Hu.
  pose proof (@normalized_unit trans Htr) as Ht.
  assert (Hglide : forall g, axial.glide axis gtrans origin = Ok g ->
                             orthogonal (linear_part g)).
  { intros g. unfold axial.glide.
    destruct (np_isclose _ _); cbn [negb]; [|discriminate].
    intros Hg. apply new_PGSymmetry_Ok in Hg. subst g.
    cbn [linear_part]. now apply householder_orthogonal. }
  split; [|split; [|split; [|split; [|split; [|split]]]]].
  - eexists. split; [now apply rotation_returns|].
    now apply rodrigues_orthogonal.
  - eexists. split; [now apply reflection_returns|].
    now apply householder_orthogonal.
  - eexists. split; [now apply rotoreflection_returns|].
    apply orthogonal_matmul.
    + now apply householder_orthogonal.
    + now apply rodrigues_orthogonal.
  - eexists. split; [apply inversion_returns|]. apply inversion_orthogonal.
  - eexists. split; [now apply screw_returns|].
    now apply rodrigues_orthogonal.
  - exact Hglide.
  - intros Hperp. eexists. split; [now apply glide_returns|].
    now apply householder_orthogonal.
Qed.

Lemma R_isclose_zero (x : R) :
  R_isclose x 0 = true <-> Rabs x <= isclose_atol.
Proof.
  unfold R_isclose. rewrite Rminus_0_r, Rabs_R0, Rmult_0_r, Rplus_0_r.
  destruct (Rle_dec _ _); split; easy.
Qed.

Lemma R_isclose_zero_zero : R_isclose 0 0 = true.
Proof.
  apply R_isclose_zero. rewrite Rabs_R0. unfold isclose_atol. lra.
Qed.



(** C7. [reflection(axis)] raises its [ValueError], whose message names
    the planar reflection builder, if and only if [axis] does not have
    exactly three components; on a nonzero three-component axis it returns
    the linear part [I - 2 (a (x) a)], [a] being the axis divided by its
    norm, and no translation. *)
Theorem reflection_checks_dimension :
  (forall (num : Scalar) (axis : list F),
      axial.reflection axis = Raise (ValueError axial.reflection_msg) <->
      List.length axis <> 3%nat) /\
  (exists pre post,
      axial.reflection_msg =
      (pre ++ "use nk.utils.group.planar.reflection instead" ++ post)%string) /\
  (forall x y z : R,
      vec x y z <> zero3 ->
      let a := vdiv (vec x y z) (np_linalg_norm (vec x y z)) in
      axial.reflection [x; y; z] =
      Ok (PGSymmetry (msub np_eye3 (mscale 2 (np_outer a a))) None)).
Proof.
  split; [|split].
  - intros num axis. split.
    + intros Hraise Hlen. rewrite reflection_right_length in Hraise by assumption.
      apply new_PGSymmetry_Raise in Hraise. discriminate Hraise.
    + apply reflection_wrong_length.
  - exists "The axis must be a 3 component vector.If you want reflections in 2 dimensions, "%string,
           "."%string.
    reflexivity.
  - intros x y z Hax. cbv zeta.
    change [x; y; z] with (to_list (vec x y z)).
    now rewrite reflection_returns.
Qed.

End ExactClaims.

(** * The theorems at concrete inputs *)

Section Instances.
Local Open Scope R_scope.
Local Abbreviation vec := (@mkV RScalar).


Lemma z_axis_nonzero : vec 0 0 1 <> zero3.
Proof. intros [= H]. lra. Qed.

Lemma x_axis_nonzero : vec 1 0 0 <> zero3.
Proof. intros [= H]. lra. Qed.


Lemma dot_z_x : np_dot (vec 0 0 1) (vec 1 0 0) = 0.
Proof. unfold_la. lra. Qed.


Lemma isclose_z_x : np_isclose (np_dot (vec 0 0 1) (vec 1 0 0)) (of_int 0) = true.
Proof. rewrite dot_z_x. exact R_isclose_zero_zero. Qed.

Lemma screw_group_closes_at_first_index_witness :
  (exists k : Z,
      (1 <= k)%Z /\
      is_approx_int_tol (/ 100000000) (IZR k * (120 / 360)) = true /\
      (forall j, (1 <= j < k)%Z ->
                 is_approx_int_tol (/ 100000000) (IZR j * (120 / 360)) = false) /\
      exists ops,
        Forall2 (fun i e =>
                   axial.screw (IZR i * 120) (vscale (IZR i) (vec 0 0 1)) (vec 0 0 0)
                   = Ok e)
                (range 1 k) ops /\
        List.length (Identity :: ops) = Z.to_nat k /\
        forall fuel, (Z.to_nat k <= fuel)%nat ->
          axial.screw_group (is_approx_int_tol (/ 100000000)) fuel 120
            (vec 0 0 1) (vec 0 0 0) =
          Some (Ok (mkPointGroup (Identity :: ops) 3))) /\
  exists s,
    axial.screw 180 (vec 0 0 1) (vec 0 0 0) = Ok s /\
    forall fuel, (2 <= fuel)%nat ->
      axial.screw_group (is_approx_int_tol (/ 100000000)) fuel 180
        (vec 0 0 1) (vec 0 0 0) =
      Some (Ok (mkPointGroup [Identity; s] 3)).
Proof.
  destruct (screw_group_closes_at_first_index (is_approx_int_tol (/ 100000000)))
    as [Hgen H180].
  split.
  - apply Hgen; [exact z_axis_nonzero|]. exists 3%Z. split; [lia|].
    replace (3 * (120 / 360)) with 1 by lra.
    apply (is_approx_int_tol_IZR 1). lra.
  - apply H180.
    + apply is_approx_int_tol_half. lra.
    + apply (is_approx_int_tol_IZR 1). lra.
Defined.

(** With [trans = (0,0,0)] and the angle 180, the test accepts [i = 2],
    but nothing is returned: the first screw is rejected. *)
Lemma screw_group_zero_trans_counterexample :
  ~ exists libm_cos libm_sin : float -> float,
      closes_at (num := Float64Scalar libm_cos libm_sin)
        (float_is_approx_int 0x1.5798ee2308c3ap-27) 180%float 2 = true ->
      exists fuel g,
        axial.screw_group (num := Float64Scalar libm_cos libm_sin)
          (float_is_approx_int 0x1.5798ee2308c3ap-27) fuel 180%float
          (@mkV (Float64Scalar libm_cos libm_sin) 0%float 0%float 0%float)
          (@mkV (Float64Scalar libm_cos libm_sin) 0%float 0%float 0%float)
        = Some (Ok g).
Proof.
  intros (c & s & Hclaim).
  destruct Hclaim as (fuel & g & Hg); [reflexivity|].
  destruct fuel as [|fuel]; [discriminate Hg|].
  rewrite screw_group_zero_trans in Hg by (reflexivity || lia).
  discriminate Hg.
Qed.

Lemma screw_group_of_closed_angle_witness :
  axial.screw_group (is_approx_int_tol (/ 1000)) 1 360 (vec 0 0 1) (vec 0 0 0) =
  Some (Ok (mkPointGroup [Identity] 3)) /\
  axial.screw_group (is_approx_int_tol (/ 1000)) 1 0 (vec 0 0 1) (vec 0 0 0) =
  Some (Ok (mkPointGroup [Identity] 3)).
Proof.
  split; apply screw_group_of_closed_angle; try lia.
  - replace (360 / 360) with 1 by lra. apply (is_approx_int_tol_IZR 1). lra.
  - replace (0 / 360) with 0 by lra. apply (is_approx_int_tol_IZR 0). lra.
Defined.

Lemma C_is_cyclic_witness :
  exists rots R,
    axial.C 4 (vec 0 0 1) = Ok (mkPointGroup (Identity :: rots) 3) /\
    List.length (Identity :: rots) = 4%nat /\
    axial.rotation (360 / 4) (vec 0 0 1) = Ok R /\
    mpow (linear_part R) 4 = np_eye3.
Proof.
  destruct (@C_is_cyclic 4 (vec 0 0 1)) as (rots & R & _ & HC & Hlen & HR & Hpow).
  - lia.
  - exact z_axis_nonzero.
  - exists rots, R. repeat split; assumption.
Defined.

Lemma S_alternates_witness :
  axial.S pairwise_products 3 (vec 0 0 1) = axial.Ch pairwise_products 3 (vec 0 0 1) /\
  exists ops,
    List.length (Identity :: ops) = 4%nat /\
    axial.S pairwise_products 4 (vec 0 0 1) = Ok (mkPointGroup (Identity :: ops) 3).
Proof.
  split.
  - apply (proj1 (S_alternates pairwise_products 3 (vec 0 0 1))). reflexivity.
  - destruct (proj2 (proj2 (S_alternates pairwise_products 4 (vec 0 0 1))))
      as (ops & _ & Hlen & HS).
    + reflexivity.
    + lia.
    + exact z_axis_nonzero.
    + exists ops. split; assumption.
Defined.

Lemma linear_parts_are_orthogonal_witness :
  (exists r, axial.rotation 90 (vec 0 0 1) = Ok r /\ orthogonal (linear_part r)) /\
  (exists r, axial.screw 90 (vec 0 0 1) (vec 0 0 0) = Ok r /\
             orthogonal (linear_part r)) /\
  exists g, axial.glide (vec 0 0 1) (vec 1 0 0) (vec 0 0 0) = Ok g /\
            orthogonal (linear_part g).
Proof.
  destruct (@linear_parts_are_orthogonal 90 (vec 0 0 1) (vec 0 0 1) (vec 1 0 0)
              (vec 0 0 0) z_axis_nonzero z_axis_nonzero)
    as (Hrot & _ & _ & _ & Hscrew & _ & Hglide).
  split; [exact Hrot|]. split; [exact Hscrew|].
  apply Hglide. exact isclose_z_x.
Defined.



Lemma reflection_checks_dimension_witness :
  @axial.reflection RScalar [1; 0] = Raise (ValueError axial.reflection_msg) /\
  exists W, @axial.reflection RScalar [0; 0; 1] = Ok (PGSymmetry W None).
Proof.
  destruct reflection_checks_dimension as (Hiff & _ & Hok).
  split.
  - apply (proj2 (Hiff RScalar [1; 0])). cbn. lia.
  - eexists. apply (Hok 0 0 1). exact z_axis_nonzero.
Defined.

Lemma screw_rotation_and_translation_witness :
  exists W,
    axial.screw 90 (vec 0 0 1) zero3 = Ok (PGSymmetry W (Some (vec 0 0 1))) /\
    matvec W (vec 0 0 1) = vec 0 0 1.
Proof.
  destruct (@screw_rotation_and_translation 90 (vec 0 0 1) (vec 1 0 0) z_axis_nonzero)
    as (_ & Hfix & Hzero).
  eexists. split; [exact Hzero|exact Hfix].
Defined.

Lemma C_nonpositive_index_witness :
  @axial.C RScalar (-2) (vec 0 0 1) = Ok (mkPointGroup [Identity] 3) /\
  @axial.C RScalar 0 (vec 0 0 1) = Ok (mkPointGroup [Identity] 3).
Proof.
  split; apply C_nonpositive_index; lia.
Defined.

Lemma C_zero_counterexample :
  @axial.C RScalar 0 (vec 0 0 1) <> Raise ZeroDivisionError.
Proof.
  rewrite C_empty_range by lia. discriminate.
Qed.

End Instances.

(** * Further properties of the builders and the constructors *)

(** ** In exact real arithmetic *)

Section ExactGeometry.
Local Open Scope R_scope.
Local Abbreviation vec := (@mkV RScalar).
Local Abbreviation rot := (@rotation_op RScalar).
Local Abbreviation rotorefl := (@rotoreflection_op RScalar).
Local Abbreviation mirror := (@reflection_op RScalar).
Local Abbreviation scr := (@screw_op RScalar).
Local Abbreviation scale := (@vscale RScalar).

Ltac unfold_geo := unfold det3, affine in *; unfold_la.

Lemma rotoreflection_op_linear_part (angle : R) (axis : Vec3) :
  linear_part (rotorefl angle axis) =
  matmul (axial.householder (unit_of axis))
         (axial.rodrigues (angle * (PI / 180)) (unit_of axis)).
Proof. reflexivity. Qed.

Lemma reflection_op_linear_part (axis : Vec3) :
  linear_part (mirror axis) = axial.householder (unit_of axis).
Proof. reflexivity. Qed.

Lemma cos_turns (x : R) (k : Z) : cos (x + 2 * IZR k * PI) = cos x.
Proof.
  destruct (Z_le_gt_dec 0 k) as [Hk|Hk].
  - rewrite <- (Z2Nat.id k Hk), <- INR_IZR_INZ. apply cos_period.
  - rewrite <- (cos_period (x + 2 * IZR k * PI) (Z.to_nat (- k))).
    f_equal. rewrite INR_IZR_INZ, Z2Nat.id by lia. rewrite opp_IZR. ring.
Qed.

Lemma sin_turns (x : R) (k : Z) : sin (x + 2 * IZR k * PI) = sin x.
Proof.
  destruct (Z_le_gt_dec 0 k) as [Hk|Hk].
  - rewrite <- (Z2Nat.id k Hk), <- INR_IZR_INZ. apply sin_period.
  - rewrite <- (sin_period (x + 2 * IZR k * PI) (Z.to_nat (- k))).
    f_equal. rewrite INR_IZR_INZ, Z2Nat.id by lia. rewrite opp_IZR. ring.
Qed.

Lemma rodrigues_turns (a : R) (k : Z) (u : Vec3) :
  axial.rodrigues (a + 2 * IZR k * PI) u = axial.rodrigues a u.
Proof.
  unfold axial.rodrigues. cbn [np_cos np_sin RScalar].
  now rewrite cos_turns, sin_turns.
Qed.

(** X1. On a nonzero axis, whole turns do not change a rotation:
    [rotation(angle + 360 k, axis)] and [rotation(angle, axis)] both
    return, with the same linear part, for every integer [k];
    [rotation(0, axis)] and [rotation(360, axis)] return the identity
    matrix. *)
Theorem rotation_whole_turns (angle : R) (k : Z) (axis : Vec3) :
  axis <> zero3 ->
  exists r rk r0 r360,
    axial.rotation angle axis = Ok r /\
    axial.rotation (angle + 360 * IZR k) axis = Ok rk /\
    axial.rotation 0 axis = Ok r0 /\
    axial.rotation 360 axis = Ok r360 /\
    linear_part rk = linear_part r /\
    linear_part r0 = np_eye3 /\
    linear_part r360 = np_eye3.
Proof.
  intros Hax.
  exists (rot angle axis), (rot (angle + 360 * IZR k) axis),
         (rot 0 axis), (rot 360 axis).
  do 4 (split; [now apply rotation_returns|]).
  rewrite !rotation_op_linear_part. split; [|split].
  - rewrite <- (rodrigues_turns (angle * (PI / 180)) k). f_equal. field.
  - rewrite <- (rodrigues_zero (unit_of axis)). f_equal. field.
  - rewrite <- (rodrigues_full_turn (unit_of axis)). f_equal. field.
Qed.

(** X2. Rotations about the same nonzero axis compose by adding their
    angles. *)
Theorem rotation_angles_add (a b : R) (axis : Vec3) :
  axis <> zero3 ->
  exists ra rb rab,
    axial.rotation a axis = Ok ra /\
    axial.rotation b axis = Ok rb /\
    axial.rotation (a + b) axis = Ok rab /\
    matmul (linear_part ra) (linear_part rb) = linear_part rab.
Proof.
  intros Hax.
  exists (rot a axis), (rot b axis), (rot (a + b) axis).
  do 3 (split; [now apply rotation_returns|]).
  rewrite !rotation_op_linear_part.
  rewrite rodrigues_matmul by now apply normalized_unit.
  f_equal. field.
Qed.

Lemma rodrigues_transpose (a : R) (u : Vec3) :
  transpose (axial.rodrigues a u) = axial.rodrigues (- a) u.
Proof.
  destruct u as [x y z]. unfold_la. rewrite cos_neg, sin_neg. mat_eq ring.
Qed.

(** X3. The rotation by the opposite angle is the transpose of the
    rotation, and it undoes it. *)
Theorem rotation_opposite_angle (a : R) (axis : Vec3) :
  axis <> zero3 ->
  exists r r',
    axial.rotation a axis = Ok r /\
    axial.rotation (- a) axis = Ok r' /\
    linear_part r' = transpose (linear_part r) /\
    matmul (linear_part r') (linear_part r) = np_eye3.
Proof.
  intros Hax.
  exists (rot a axis), (rot (- a) axis).
  do 2 (split; [now apply rotation_returns|]).
  rewrite !rotation_op_linear_part.
  assert (Ht : axial.rodrigues (- a * (PI / 180)) (unit_of axis) =
               transpose (axial.rodrigues (a * (PI / 180)) (unit_of axis))).
  { rewrite rodrigues_transpose. f_equal. field. }
  split; [exact Ht|].
  rewrite Ht. apply rodrigues_orthogonal. now apply normalized_unit.
Qed.

Lemma norm_vscale (c : R) (v : Vec3) :
  np_linalg_norm (scale c v) = Rabs c * np_linalg_norm v.
Proof.
  destruct v as [x y z]. unfold_la.
  replace (c * x * (c * x) + c * y * (c * y) + c * z * (c * z))
    with (Rsqr c * (x * x + y * y + z * z)) by (unfold Rsqr; ring).
  rewrite sqrt_mult; [|apply Rle_0_sqr|nra].
  now rewrite sqrt_Rsqr_abs.
Qed.

Lemma unit_vscale_pos (c : R) (v : Vec3) :
  0 < c -> v <> zero3 -> unit_of (scale c v) = unit_of v.
Proof.
  intros Hc Hv. unfold unit_of. rewrite norm_vscale, Rabs_pos_eq by lra.
  pose proof (@norm_pos v Hv) as Hn.
  destruct v as [x y z]. set (n := np_linalg_norm _) in *.
  unfold vscale, vdiv. cbn [vx vy vz].
  apply Vec3_eq; cbv [fdiv fmul fneg RScalar F]; field; lra.
Qed.

Lemma unit_vscale_neg (c : R) (v : Vec3) :
  c < 0 -> v <> zero3 -> unit_of (scale c v) = vneg (unit_of v).
Proof.
  intros Hc Hv. unfold unit_of. rewrite norm_vscale, Rabs_left by lra.
  pose proof (@norm_pos v Hv) as Hn.
  destruct v as [x y z]. set (n := np_linalg_norm _) in *.
  unfold vscale, vdiv, vneg. cbn [vx vy vz].
  apply Vec3_eq; cbv [fdiv fmul fneg RScalar F]; field; lra.
Qed.

Lemma rodrigues_vneg (a : R) (u : Vec3) :
  axial.rodrigues a (vneg u) = axial.rodrigues (- a) u.
Proof.
  destruct u as [x y z]. unfold_la. rewrite cos_neg, sin_neg. mat_eq ring.
Qed.

Lemma householder_vneg (u : Vec3) :
  axial.householder (vneg u) = axial.householder u.
Proof.
  destruct u as [x y z]. unfold_la. mat_eq ring.
Qed.

(** X4. The axis of [rotation] need not be normalised: a positive
    multiple of a nonzero axis gives the same operation, a negative
    multiple the rotation by the opposite angle. *)
Theorem rotation_axis_need_not_be_normalised (angle c : R) (axis : Vec3) :
  axis <> zero3 ->
  exists r r',
    axial.rotation angle axis = Ok r /\
    axial.rotation (- angle) axis = Ok r' /\
    (0 < c -> axial.rotation angle (scale c axis) = Ok r) /\
    (c < 0 -> axial.rotation angle (scale c axis) = Ok r').
Proof.
  intros Hax.
  exists (rot angle axis), (rot (- angle) axis).
  do 2 (split; [now apply rotation_returns|]).
  split; intros Hc.
  - rewrite rotation_returns by (apply vscale_nonzero; [lra|assumption]).
    unfold rotation_op. now rewrite unit_vscale_pos.
  - rewrite rotation_returns by (apply vscale_nonzero; [lra|assumption]).
    unfold rotation_op. rewrite unit_vscale_neg, rodrigues_vneg by assumption.
    do 3 f_equal. cbn. ring.
Qed.

Lemma orthogonal_preserves_dot (W : Mat3) (u v : Vec3) :
  orthogonal W -> np_dot (matvec W u) (matvec W v) = np_dot u v.
Proof.
  destruct W as [[a b c] [d e f] [g h i]], u as [x y z], v as [x' y' z'].
  unfold_la. intros [= H1 H2 H3 H4 H5 H6 H7 H8 H9].
  nsatz.
Qed.

Lemma rodrigues_det (a : R) (u : Vec3) :
  np_dot u u = 1 -> det3 (axial.rodrigues a u) = 1.
Proof.
  destruct u as [x y z]. unfold_geo. intros Hu.
  pose proof (sin2_cos2 a) as Hsc. unfold Rsqr in Hsc.
  nsatz.
Qed.

Lemma householder_det (u : Vec3) :
  np_dot u u = 1 -> det3 (axial.householder u) = -1.
Proof.
  destruct u as [x y z]. unfold_geo. intros Hu. nsatz.
Qed.

Lemma det3_matmul (A B : @Mat3 RScalar) : det3 (matmul A B) = det3 A * det3 B.
Proof.
  destruct A as [[? ? ?] [? ? ?] [? ? ?]], B as [[? ? ?] [? ? ?] [? ? ?]].
  unfold_geo. ring.
Qed.

(** X5. On a nonzero axis [rotation(angle, axis)] returns an operation
    whose linear part leaves [axis] fixed, preserves the dot product of any
    two vectors and has determinant 1. *)
Theorem rotation_is_proper_and_fixes_axis (angle : R) (axis u v : Vec3) :
  axis <> zero3 ->
  exists r,
    axial.rotation angle axis = Ok r /\
    let W := linear_part r in
    matvec W axis = axis /\
    np_dot (matvec W u) (matvec W v) = np_dot u v /\
    det3 W = 1.
Proof.
  intros Hax. exists (rot angle axis).
  split; [now apply rotation_returns|].
  cbv zeta. rewrite rotation_op_linear_part.
  pose proof (@normalized_unit axis Hax) as Hu.
  split; [|split].
  - apply unit_fixed_of_axis_fixed; [assumption|].
    now apply rodrigues_fixes_axis.
  - apply orthogonal_preserves_dot. now apply rodrigues_orthogonal.
  - now apply rodrigues_det.
Qed.

Lemma householder_involution (u : Vec3) :
  np_dot u u = 1 ->
  matmul (axial.householder u) (axial.householder u) = np_eye3.
Proof.
  destruct u as [x y z]. unfold_la. intros Hu. mat_eq nsatz.
Qed.

Lemma householder_symmetric (u : Vec3) :
  transpose (axial.householder u) = axial.householder u.
Proof.
  destruct u as [x y z]. unfold_la. mat_eq ring.
Qed.

Lemma householder_negates (u : Vec3) :
  np_dot u u = 1 -> matvec (axial.householder u) u = vneg u.
Proof.
  destruct u as [x y z]. unfold_la. intros Hu. apply Vec3_eq; cbv [F]; nsatz.
Qed.

Lemma householder_fixes_plane (u v : Vec3) :
  np_dot u v = 0 -> matvec (axial.householder u) v = v.
Proof.
  destruct u as [x y z], v as [x' y' z']. unfold_la. intros Huv.
  apply Vec3_eq; cbv [F]; nsatz.
Qed.

Lemma dot_unit_of (v p : Vec3) :
  v <> zero3 -> np_dot v p = 0 -> np_dot (unit_of v) p = 0.
Proof.
  intros Hv Hp. pose proof (@norm_pos v Hv) as Hn. unfold unit_of.
  destruct v as [x y z], p as [x' y' z'].
  set (n := np_linalg_norm _) in *. unfold vdiv, np_dot in *.
  cbn [vx vy vz] in *. cbv [fdiv fmul fadd RScalar F] in *.
  replace (x / n * x' + y / n * y' + z / n * z')
    with ((x * x' + y * y' + z * z') / n) by (field; lra).
  rewrite Hp. field. lra.
Qed.

Lemma vneg_unit_of (v : Vec3) :
  v <> zero3 -> matvec (axial.householder (unit_of v)) v = vneg v.
Proof.
  intros Hv.
  assert (Hscale : scale (np_linalg_norm v) (unit_of v) = v)
    by now apply vscale_normalized.
  pose proof (@normalized_unit v Hv) as Hu.
  set (u := unit_of v) in *. set (n := np_linalg_norm v) in *.
  clearbody u n. subst v.
  rewrite matvec_vscale, householder_negates by assumption.
  destruct u as [x y z]. unfold_la. apply Vec3_eq; cbv [F]; ring.
Qed.

(** X6. [reflection(axis)] on a nonzero axis returns the mirror with
    normal [axis]: it sends [axis] to its opposite and leaves every vector
    perpendicular to [axis] fixed. *)
Theorem reflection_is_a_mirror (axis v : Vec3) :
  axis <> zero3 ->
  exists W,
    axial.reflection (to_list axis) = Ok (PGSymmetry W None) /\
    matvec W axis = vneg axis /\
    (np_dot axis v = 0 -> matvec W v = v).
Proof.
  intros Hax. eexists. split; [now apply reflection_returns|]. split.
  - now apply vneg_unit_of.
  - intros Hv. apply householder_fixes_plane. now apply dot_unit_of.
Qed.

(** X7. The linear part of [reflection(axis)] is its own inverse, is
    symmetric and has determinant -1. *)
Theorem reflection_is_an_involution (axis : Vec3) :
  axis <> zero3 ->
  exists W,
    axial.reflection (to_list axis) = Ok (PGSymmetry W None) /\
    matmul W W = np_eye3 /\
    transpose W = W /\
    det3 W = -1.
Proof.
  intros Hax. pose proof (@normalized_unit axis Hax) as Hu.
  eexists. split; [now apply reflection_returns|]. split; [|split].
  - now apply householder_involution.
  - apply householder_symmetric.
  - now apply householder_det.
Qed.

(** X8. The axis of [reflection] need not be normalised nor oriented:
    every nonzero multiple of a nonzero axis gives the same operation. *)
Theorem reflection_axis_need_not_be_normalised (c : R) (axis : Vec3) :
  axis <> zero3 -> c <> 0 ->
  exists m,
    axial.reflection (to_list axis) = Ok m /\
    axial.reflection (to_list (scale c axis)) = Ok m.
Proof.
  intros Hax Hc. exists (mirror axis).
  split; [now apply reflection_returns|].
  rewrite reflection_returns by now apply vscale_nonzero.
  unfold reflection_op.
  destruct (Rdichotomy c 0 Hc) as [Hneg|Hpos].
  - now rewrite unit_vscale_neg, householder_vneg.
  - now rewrite unit_vscale_pos.
Qed.

Lemma householder_rodrigues_commute (a : R) (u : Vec3) :
  np_dot u u = 1 ->
  matmul (axial.householder u) (axial.rodrigues a u) =
  matmul (axial.rodrigues a u) (axial.householder u).
Proof.
  destruct u as [x y z]. unfold_la. intros Hu. mat_eq nsatz.
Qed.

Lemma rotoreflection_matmul (a b : R) (u : Vec3) :
  np_dot u u = 1 ->
  matmul (matmul (axial.householder u) (axial.rodrigues a u))
         (matmul (axial.householder u) (axial.rodrigues b u)) =
  axial.rodrigues (a + b) u.
Proof.
  intros Hu.
  rewrite (@householder_rodrigues_commute a u Hu).
  rewrite matmul_assoc, <- (matmul_assoc (axial.householder u)).
  rewrite householder_involution, matmul_eye_l by assumption.
  now apply rodrigues_matmul.
Qed.

(** X9. On a nonzero axis, in [rotoreflection] the reflection and the
    rotation commute; two rotoreflections about the same axis compose to
    the pure rotation by the sum of the angles; a rotoreflection reverses
    its axis and has determinant -1. *)
Theorem rotoreflections_compose_to_rotations (a b : R) (axis : Vec3) :
  axis <> zero3 ->
  exists Wm sa sb ra rab,
    axial.reflection (to_list axis) = Ok (PGSymmetry Wm None) /\
    axial.rotoreflection a axis = Ok sa /\
    axial.rotoreflection b axis = Ok sb /\
    axial.rotation a axis = Ok ra /\
    axial.rotation (a + b) axis = Ok rab /\
    linear_part sa = matmul (linear_part ra) Wm /\
    matmul (linear_part sa) (linear_part sb) = linear_part rab /\
    matvec (linear_part sa) axis = vneg axis /\
    det3 (linear_part sa) = -1.
Proof.
  intros Hax. pose proof (@normalized_unit axis Hax) as Hu.
  exists (axial.householder (unit_of axis)),
         (rotorefl a axis), (rotorefl b axis), (rot a axis), (rot (a + b) axis).
  split; [now apply reflection_returns|].
  do 2 (split; [now apply rotoreflection_returns|]).
  do 2 (split; [now apply rotation_returns|]).
  rewrite !rotoreflection_op_linear_part, !rotation_op_linear_part.
  split; [|split; [|split]].
  - now apply householder_rodrigues_commute.
  - rewrite rotoreflection_matmul by assumption. f_equal. field.
  - rewrite householder_rodrigues_commute by assumption.
    assert (Hneg : matvec (axial.householder (unit_of axis)) axis = vneg axis)
      by now apply vneg_unit_of.
    assert (Hfix : matvec (axial.rodrigues (a * (PI / 180)) (unit_of axis)) axis = axis).
    { apply unit_fixed_of_axis_fixed; [assumption|].
      now apply rodrigues_fixes_axis. }
    revert Hneg Hfix.
    generalize (axial.householder (unit_of axis))
               (axial.rodrigues (a * (PI / 180)) (unit_of axis)).
    intros [[? ? ?] [? ? ?] [? ? ?]] [[? ? ?] [? ? ?] [? ? ?]].
    destruct axis as [x y z]. unfold_la.
    intros [= N1 N2 N3] [= F1 F2 F3].
    apply Vec3_eq; cbv [F]; nsatz.
  - rewrite det3_matmul, householder_det, rodrigues_det by assumption.
    cbv [F RScalar]. ring.
Qed.

(** X12. On a nonzero axis [S(2, axis)] is
    [[Identity, rotoreflection(180, axis)]], and the linear part of that
    rotoreflection is the one of [inversion()], whatever the axis. *)
Theorem S_2_is_the_inversion_group
        (group_matmul : PointGroup -> PointGroup -> PointGroup) (axis : Vec3) :
  axis <> zero3 ->
  exists s i,
    axial.rotoreflection 180 axis = Ok s /\
    @axial.inversion RScalar = Ok i /\
    axial.S group_matmul 2 axis = Ok (mkPointGroup [Identity; s] 3) /\
    linear_part s = linear_part i.
Proof.
  intros Hax. pose proof (@normalized_unit axis Hax) as Hu.
  exists (rotorefl 180 axis), (@inversion_op RScalar).
  split; [now apply rotoreflection_returns|].
  split; [exact inversion_returns|]. split.
  { rewrite S_even_returns by (reflexivity || assumption).
    change (range 1 2) with [1%Z]. cbn [map]. unfold S_elem.
    change (Z.odd 1) with true. cbv iota.
    assert (Hang : (@of_int RScalar 360 / @of_int RScalar 2 * @of_int RScalar 1)%fl = 180)
      by (cbv [fmul fdiv of_int RScalar F]; field).
    now rewrite Hang. }
  rewrite rotoreflection_op_linear_part.
  replace (180 * (PI / 180)) with PI by field.
  revert Hu. generalize (unit_of axis). intros [x y z].
  unfold inversion_op, linear_part. unfold_la.
  rewrite cos_PI, sin_PI. intros Hu. mat_eq nsatz.
Qed.

Lemma parity_of_nat (k : nat) :
  Z.even (Z.of_nat k) = Nat.even k /\ Z.odd (Z.of_nat k) = Nat.odd k.
Proof.
  induction k as [|k [IHe IHo]]; [split; reflexivity|].
  rewrite Nat2Z.inj_succ, Z.even_succ, Z.odd_succ, Nat.even_succ, Nat.odd_succ.
  now split.
Qed.

Lemma mpow_rotoreflection (a : R) (u : Vec3) (i : nat) :
  np_dot u u = 1 ->
  mpow (matmul (axial.householder u) (axial.rodrigues a u)) i =
  if Nat.even i
  then axial.rodrigues (INR i * a) u
  else matmul (axial.householder u) (axial.rodrigues (INR i * a) u).
Proof.
  intros Hu. induction i as [|i IH].
  - cbn [mpow Nat.even]. change (INR 0) with 0. rewrite Rmult_0_l.
    symmetry. apply rodrigues_zero.
  - cbn [mpow]. rewrite IH, Nat.even_succ, <- Nat.negb_even.
    replace (INR (Datatypes.S i) * a) with (a + INR i * a) by (rewrite S_INR; ring).
    destruct (Nat.even i); cbn [negb].
    + now rewrite matmul_assoc, rodrigues_matmul.
    + now apply rotoreflection_matmul.
Qed.

(** X11. For [n >= 1] and a nonzero axis, the element of index [i] of
    [C(n, axis)] has the linear part of the [i]-th power of
    [rotation(360/n, axis)]. *)
Theorem C_elements_are_powers_of_the_generator (n : Z) (axis : Vec3) :
  (1 <= n)%Z -> axis <> zero3 ->
  exists g r,
    axial.C n axis = Ok g /\
    axial.rotation (360 / IZR n) axis = Ok r /\
    forall i : nat, (i < Z.to_nat n)%nat ->
      linear_part (nth i (elems g) Identity) = mpow (linear_part r) i.
Proof.
  intros Hn Hax. pose proof (@normalized_unit axis Hax) as Hu.
  assert (Hn0 : IZR n <> 0) by (apply not_0_IZR; lia).
  eexists. exists (rot (360 / IZR n) axis).
  split; [now apply C_returns|].
  split; [now apply rotation_returns|].
  intros i Hi. cbn [elems]. rewrite rotation_op_linear_part, mpow_rodrigues by assumption.
  destruct i as [|j]; cbn [nth].
  - cbn [linear_part]. change (INR 0) with 0. rewrite Rmult_0_l.
    symmetry. apply rodrigues_zero.
  - rewrite (nth_map_range (fun i => rot (360 / IZR n * IZR i) axis)) by lia.
    rewrite rotation_op_linear_part.
    f_equal. rewrite S_INR, INR_IZR_INZ.
    rewrite plus_IZR. field. exact Hn0.
Qed.

(** X10. For even [n >= 2] and a nonzero axis, the element of index [i]
    of [S(n, axis)] has the linear part of the [i]-th power of
    [rotoreflection(360/n, axis)]: the alternation of rotoreflections and
    rotations lists the cyclic group generated by one rotoreflection. *)
Theorem S_elements_are_powers_of_the_generator
        (group_matmul : PointGroup -> PointGroup -> PointGroup)
        (n : Z) (axis : Vec3) :
  Z.even n = true -> (2 <= n)%Z -> axis <> zero3 ->
  exists g s,
    axial.S group_matmul n axis = Ok g /\
    axial.rotoreflection (360 / IZR n) axis = Ok s /\
    List.length (elems g) = Z.to_nat n /\
    forall i : nat, (i < Z.to_nat n)%nat ->
      linear_part (nth i (elems g) Identity) = mpow (linear_part s) i.
Proof.
  intros Heven Hn Hax. pose proof (@normalized_unit axis Hax) as Hu.
  assert (Hn0 : IZR n <> 0) by (apply not_0_IZR; lia).
  eexists. exists (rotorefl (360 / IZR n) axis).
  split; [apply S_even_returns; [now rewrite <- Z.negb_even, Heven|assumption]|].
  split; [now apply rotoreflection_returns|].
  cbn [elems]. split.
  - cbn [List.length]. rewrite length_map, length_range. lia.
  - intros i Hi.
    rewrite rotoreflection_op_linear_part, mpow_rotoreflection by assumption.
    destruct i as [|j]; cbn [nth].
    + cbn [linear_part Nat.even]. change (INR 0) with 0. rewrite Rmult_0_l.
      symmetry. apply rodrigues_zero.
    + rewrite nth_map_range by lia. unfold S_elem.
      replace (1 + Z.of_nat j)%Z with (Z.of_nat (Datatypes.S j)) by lia.
      rewrite <- Z.negb_even, (proj1 (parity_of_nat (Datatypes.S j))).
      destruct (Nat.even (Datatypes.S j)); cbn [negb].
      * rewrite rotation_op_linear_part. f_equal.
        rewrite INR_IZR_INZ. cbv [fmul fdiv of_int RScalar F]. field. exact Hn0.
      * rewrite rotoreflection_op_linear_part. do 2 f_equal.
        rewrite INR_IZR_INZ. cbv [fmul fdiv of_int RScalar F]. field. exact Hn0.
Qed.

(** With the correction term [(I - W) origin], the affine map moves every
    point [origin + q] to [origin + W q + trans]. *)
Lemma affine_about_origin (W : Mat3) (trans origin q : Vec3) :
  affine W (vadd trans (matvec (msub np_eye3 W) origin)) (vadd origin q) =
  vadd (vadd origin (matvec W q)) trans.
Proof.
  destruct W as [[? ? ?] [? ? ?] [? ? ?]], trans as [tx ty tz],
           origin as [ox oy oz], q as [qx qy qz].
  unfold_geo. apply Vec3_eq; cbv [F]; ring.
Qed.

Lemma affine_composition_step (W1 Wi : Mat3) (t o : Vec3) (i : R) :
  matvec W1 t = t ->
  affine W1 (vadd t (matvec (msub np_eye3 W1) o))
            (vadd (scale i t) (matvec (msub np_eye3 Wi) o)) =
  vadd (scale (i + 1) t) (matvec (msub np_eye3 (matmul W1 Wi)) o).
Proof.
  destruct W1 as [[? ? ?] [? ? ?] [? ? ?]], Wi as [[? ? ?] [? ? ?] [? ? ?]],
           t as [tx ty tz], o as [ox oy oz].
  unfold_geo. intros [= H1 H2 H3].
  apply Vec3_eq; cbv [F]; nsatz.
Qed.

(** X13. The axis of [screw(angle, trans, origin)] passes through
    [origin]: every point [origin + s trans] of the axis is moved by
    exactly [trans]. *)
Theorem screw_axis_passes_through_origin (angle s : R) (trans origin : Vec3) :
  trans <> zero3 ->
  exists W w,
    axial.screw angle trans origin = Ok (PGSymmetry W (Some w)) /\
    let p := vadd origin (scale s trans) in
    affine W w p = vadd p trans.
Proof.
  intros Ht. do 2 eexists. split; [now apply screw_returns|].
  cbv zeta. rewrite affine_about_origin, matvec_vscale.
  rewrite unit_fixed_of_axis_fixed; [reflexivity|assumption|].
  apply rodrigues_fixes_axis. now apply normalized_unit.
Qed.

(** X15. The elements that the loop of [screw_group] appends are
    successive products by the generator: the element of index [i + 1] is
    the composition of [screw(angle, trans, origin)] with the element of
    index [i] (linear part [W1 Wi], translation [W1 wi + w1]). *)
Theorem screw_group_elements_are_successive_products
        (angle : R) (trans origin : Vec3) (i : Z) :
  (1 <= i)%Z -> trans <> zero3 ->
  exists W1 w1 Wi wi,
    axial.screw angle trans origin = Ok (PGSymmetry W1 (Some w1)) /\
    axial.screw (IZR i * angle) (scale (IZR i) trans) origin =
      Ok (PGSymmetry Wi (Some wi)) /\
    axial.screw (IZR (i + 1) * angle) (scale (IZR (i + 1)) trans) origin =
      Ok (PGSymmetry (matmul W1 Wi) (Some (affine W1 w1 wi))).
Proof.
  intros Hi Ht. pose proof (@normalized_unit trans Ht) as Hu.
  assert (Hpos : 0 < IZR i) by (apply IZR_lt; lia).
  assert (Hpos' : 0 < IZR (i + 1)) by (apply IZR_lt; lia).
  assert (Hstep : forall j : Z, 0 < IZR j ->
            axial.screw (IZR j * angle) (scale (IZR j) trans) origin =
            let W := axial.rodrigues (IZR j * (angle * (PI / 180))) (unit_of trans) in
            Ok (PGSymmetry W (Some (vadd (scale (IZR j) trans)
                                         (matvec (msub np_eye3 W) origin))))).
  { intros j Hj. rewrite screw_returns by (apply vscale_nonzero; [lra|assumption]).
    unfold screw_op. cbv zeta.
    rewrite unit_vscale_pos by assumption.
    cbn [np_radians RScalar].
    now replace (IZR j * angle * (PI / 180)) with (IZR j * (angle * (PI / 180))) by ring. }
  do 4 eexists. split; [now apply screw_returns|].
  split; [now apply Hstep|].
  rewrite Hstep by assumption. cbv zeta.
  rewrite affine_composition_step.
  - rewrite rodrigues_matmul by assumption. cbn [np_radians RScalar].
    replace (angle * (PI / 180) + IZR i * (angle * (PI / 180)))
      with (IZR (i + 1) * (angle * (PI / 180))) by (rewrite plus_IZR; ring).
    now rewrite plus_IZR.
  - apply unit_fixed_of_axis_fixed; [assumption|].
    now apply rodrigues_fixes_axis.
Qed.

Lemma vadd_msub_eye_eye (t o : Vec3) :
  vadd t (matvec (msub np_eye3 np_eye3) o) = t.
Proof.
  destruct t as [tx ty tz], o as [ox oy oz]. unfold_la.
  apply Vec3_eq; cbv [F]; ring.
Qed.

(** X16. At an index [k] where [k angle / 360] is an integer, the screw
    that the loop of [screw_group] leaves out is the pure translation by
    [k trans]: its linear part is the identity. *)
Theorem screw_at_the_closing_index_is_a_translation
        (angle : R) (trans origin : Vec3) (k m : Z) :
  (1 <= k)%Z -> trans <> zero3 ->
  IZR k * angle / 360 = IZR m ->
  axial.screw (IZR k * angle) (scale (IZR k) trans) origin =
  Ok (PGSymmetry np_eye3 (Some (scale (IZR k) trans))).
Proof.
  intros Hk Ht Hclose.
  rewrite screw_returns
    by (apply vscale_nonzero; [apply not_0_IZR; lia|assumption]).
  unfold screw_op. cbv zeta. cbn [np_radians RScalar].
  assert (HW : axial.rodrigues (IZR k * angle * (PI / 180))
                 (unit_of (scale (IZR k) trans)) = np_eye3).
  { replace (IZR k * angle * (PI / 180)) with (0 + 2 * IZR m * PI)
      by (rewrite <- Hclose; field).
    rewrite rodrigues_turns. apply rodrigues_zero. }
  rewrite HW. now rewrite vadd_msub_eye_eye.
Qed.

Lemma affine_twice (W : Mat3) (t o q : Vec3) :
  matmul W W = np_eye3 -> matvec W t = t ->
  let w := vadd t (matvec (msub np_eye3 W) o) in
  affine W w (affine W w q) = vadd q (scale 2 t).
Proof.
  destruct W as [[a b c] [d e f] [g h i]], t as [tx ty tz],
           o as [ox oy oz], q as [qx qy qz].
  unfold_geo. intros [= H1 H2 H3 H4 H5 H6 H7 H8 H9] [= T1 T2 T3].
  apply Vec3_eq; cbv [F]; nsatz.
Qed.

Lemma vadd_vsub_cancel (o p : Vec3) : vadd o (vsub p o) = p.
Proof.
  destruct o as [ox oy oz], p as [px py pz]. unfold_la.
  apply Vec3_eq; cbv [F]; ring.
Qed.

(** X14. For a nonzero [axis] and [trans] perpendicular to it,
    [glide(axis, trans, origin)] moves every point of the plane through
    [origin] with normal [axis] by [trans], and applied twice it is the
    translation by [2 trans]. *)
Theorem glide_mirrors_and_translates (axis trans origin p q : Vec3) :
  axis <> zero3 -> np_dot axis trans = 0 ->
  exists W w,
    axial.glide axis trans origin = Ok (PGSymmetry W (Some w)) /\
    (np_dot axis (vsub p origin) = 0 -> affine W w p = vadd p trans) /\
    affine W w (affine W w q) = vadd q (scale 2 trans).
Proof.
  intros Hax Hperp. pose proof (@normalized_unit axis Hax) as Hu.
  do 2 eexists. split.
  { apply glide_returns; [assumption|].
    rewrite Hperp. exact R_isclose_zero_zero. }
  split.
  - intros Hp. rewrite <- (vadd_vsub_cancel origin p) at 1.
    rewrite affine_about_origin, householder_fixes_plane by now apply dot_unit_of.
    now rewrite vadd_vsub_cancel.
  - apply affine_twice.
    + now apply householder_involution.
    + apply householder_fixes_plane. now apply dot_unit_of.
Qed.

Lemma rodrigues_half_turn_reverses (u v : Vec3) :
  np_dot u v = 0 -> matvec (axial.rodrigues PI u) v = vneg v.
Proof.
  destruct u as [x y z], v as [x' y' z']. unfold_la.
  rewrite cos_PI, sin_PI. intros Huv.
  apply Vec3_eq; cbv [F]; nsatz.
Qed.

(** X23. For perpendicular axes, the generator of the factor [C(2, axis2)]
    of [D] is the half turn about [axis2], and it reverses the principal
    axis. *)
Theorem D_twofold_axis_reverses_the_principal_axis (axis axis2 : Vec3) :
  axis2 <> zero3 -> np_dot axis axis2 = 0 ->
  exists h,
    axial.rotation 180 axis2 = Ok h /\
    axial.C 2 axis2 = Ok (mkPointGroup [Identity; h] 3) /\
    matvec (linear_part h) axis = vneg axis.
Proof.
  intros Hax Hperp. exists (rot 180 axis2).
  split; [now apply rotation_returns|]. split.
  - rewrite C_returns by assumption. change (range 1 2) with [1%Z]. cbn [map].
    now replace (360 / 2 * 1) with 180 by field.
  - rewrite rotation_op_linear_part.
    replace (180 * (PI / 180)) with PI by field.
    apply rodrigues_half_turn_reverses. apply dot_unit_of; [assumption|].
    destruct axis as [x y z], axis2 as [x' y' z']. unfold_la. lra.
Qed.

(** X18. In exact arithmetic, on a nonzero axis (or on any axis when
    [n <= 1], where no operation is built), [C(n, axis)] for every [n] and
    [S(n, axis)] for every even [n] return a group of [max(n, 1)]
    elements. *)
Theorem cyclic_constructors_accept_every_index
        (group_matmul : PointGroup -> PointGroup -> PointGroup)
        (n : Z) (axis : Vec3) :
  (n <= 1)%Z \/ axis <> zero3 ->
  group_size (axial.C n axis) = Some (Z.to_nat (Z.max n 1)) /\
  (Z.even n = true ->
   group_size (axial.S group_matmul n axis) = Some (Z.to_nat (Z.max n 1))).
Proof.
  intros Hcase. split.
  - destruct (Z_le_gt_dec n 1) as [Hn|Hn].
    + rewrite C_empty_range by assumption. cbn. f_equal. lia.
    + destruct Hcase as [Hle|Hax]; [lia|].
      rewrite C_returns by assumption. cbn [group_size elems List.length].
      rewrite length_map, length_range. f_equal. lia.
  - intros Heven.
    assert (Hodd : Z.odd n = false) by now rewrite <- Z.negb_even, Heven.
    destruct (Z_le_gt_dec n 1) as [Hn|Hn].
    + rewrite S_even_empty_range by assumption. cbn. f_equal. lia.
    + destruct Hcase as [Hle|Hax]; [lia|].
      rewrite S_even_returns by assumption.
      cbn [group_size elems List.length].
      rewrite length_map, length_range. f_equal. lia.
Qed.

(** X19. [reflection_group(axis)] raises the [ValueError] of [reflection]
    when [axis] does not have three components (in every arithmetic); in
    exact arithmetic, on a nonzero 3-component axis it returns the
    two-element group [[Identity, reflection(axis)]]. *)
Theorem reflection_group_dimension_check :
  (forall (num : Scalar) (axis : list F),
      List.length axis <> 3%nat ->
      axial.reflection_group axis = Raise (ValueError axial.reflection_msg)) /\
  (forall axis : @Vec3 RScalar,
      axis <> zero3 ->
      exists m,
        axial.reflection (to_list axis) = Ok m /\
        axial.reflection_group (to_list axis) =
        Ok (mkPointGroup [Identity; m] 3)).
Proof.
  split.
  - intros num axis Hlen. unfold axial.reflection_group.
    now rewrite reflection_wrong_length.
  - intros axis Hax. exists (mirror axis).
    split; [now apply reflection_returns|now apply reflection_group_returns].
Qed.

(** X17. [Dd(n, axis, axis2)] always takes the direct branch of [S]
    ([2n] is even, [Ch] is never called): in exact arithmetic, with nonzero
    perpendicular axes it returns the product of
    [[Identity, reflection(axis2)]] with [Identity] followed by the
    alternating rotoreflections and rotations of index [1 .. 2n-1]. *)
Theorem Dd_takes_the_direct_branch_of_S
        (group_matmul : PointGroup -> PointGroup -> PointGroup)
        (n : Z) (axis axis2 : Vec3) :
  axis <> zero3 -> axis2 <> zero3 ->
  np_isclose (np_dot axis axis2) 0 = true ->
  exists m ops,
    axial.reflection (to_list axis2) = Ok m /\
    Forall2 (fun i e =>
               (if Z.odd i
                then axial.rotoreflection (360 * IZR i / IZR (2 * n)) axis
                else axial.rotation (360 * IZR i / IZR (2 * n)) axis) = Ok e)
            (range 1 (2 * n)) ops /\
    axial.Dd group_matmul n axis axis2 =
    Ok (group_matmul (mkPointGroup [Identity; m] 3)
                     (mkPointGroup (Identity :: ops) 3)).
Proof.
  intros Hax Hax2 Hperp.
  exists (mirror axis2), (map (S_elem (2 * n) axis) (range 1 (2 * n))).
  split; [now apply reflection_returns|]. split.
  - apply Forall2_map_ok. intros i Hi. apply In_range in Hi.
    assert (Hn0 : IZR (2 * n) <> 0) by (apply not_0_IZR; lia).
    unfold S_elem.
    replace (@of_int RScalar 360 / @of_int RScalar (2 * n) * @of_int RScalar i)%fl
      with (360 * IZR i / IZR (2 * n))
      by (cbv [fmul fdiv of_int RScalar F]; field; exact Hn0).
    destruct (Z.odd i); [now apply rotoreflection_returns|now apply rotation_returns].
  - unfold axial.Dd. cbn [of_int RScalar]. rewrite Hperp. cbn [negb].
    rewrite reflection_group_returns by assumption.
    rewrite S_even_returns by (assumption || now rewrite Z.odd_mul).
    reflexivity.
Qed.

End ExactGeometry.

(** ** Termination of the screw loop in exact real arithmetic *)

Section Termination.
Local Open Scope R_scope.

(** Among the values of [f] on [a .. a+n-1], either no two are equal or
    two indices collide. *)
Lemma collision_or_NoDup (f : nat -> nat) :
  forall n a,
    NoDup (map f (seq a n)) \/
    exists i j, (a <= i < j)%nat /\ (j < a + n)%nat /\ f i = f j.
Proof.
  induction n as [|n IH]; intros a; cbn [seq map].
  - left. constructor.
  - destruct (IH (Datatypes.S a)) as [Hnd|(i & j & Hij & Hj & Heq)].
    + destruct (in_dec Nat.eq_dec (f a) (map f (seq (Datatypes.S a) n))) as [Hin|Hout].
      * right. apply in_map_iff in Hin. destruct Hin as (j & Hj & Hin).
        apply in_seq in Hin. exists a, j. repeat split; lia.
      * left. now constructor.
    + right. exists i, j. repeat split; lia.
Qed.

(** [N + 1] indices in [N] bins: two of them share a bin. *)
Lemma pigeonhole_bins (f : nat -> nat) (N : nat) :
  (forall i, (i <= N)%nat -> (f i < N)%nat) ->
  exists i j, (i < j <= N)%nat /\ f i = f j.
Proof.
  intros Hf.
  destruct (collision_or_NoDup f (Datatypes.S N) 0) as [Hnd|(i & j & Hij & Hj & Heq)].
  - exfalso.
    assert (Hlen : (List.length (map f (seq 0 (Datatypes.S N))) <= List.length (seq 0 N))%nat).
    { apply NoDup_incl_length; [assumption|].
      intros x Hx. apply in_map_iff in Hx. destruct Hx as (i & <- & Hi).
      apply in_seq in Hi. apply in_seq. specialize (Hf i). lia. }
    rewrite length_map, !length_seq in Hlen. lia.
  - exists i, j. split; [lia|assumption].
Qed.

Lemma bin_bounds (N : nat) (alpha : R) (i : nat) :
  (1 <= N)%nat ->
  let x := INR N * frac_part (INR i * alpha) in
  (0 <= Int_part x < Z.of_nat N)%Z /\ IZR (Int_part x) <= x < IZR (Int_part x) + 1.
Proof.
  intros HN x.
  assert (HNpos : 0 < INR N) by (apply lt_0_INR; lia).
  destruct (base_fp (INR i * alpha)) as [Hf0 Hf1].
  destruct (base_Int_part x) as [Hlo Hhi].
  assert (Hx0 : 0 <= x) by (unfold x; nra).
  assert (HxN : x < INR N) by (unfold x; nra).
  split; [|lra]. split.
  - assert (H : (-1 < Int_part x)%Z) by (apply lt_IZR; lra). lia.
  - apply lt_IZR. rewrite <- INR_IZR_INZ. lra.
Qed.

(** Dirichlet's approximation: among the first [N] multiples of [alpha],
    one is closer than [1/N] to an integer. *)
Lemma dirichlet (alpha : R) (N : nat) :
  (1 <= N)%nat ->
  exists (k : nat) (m : Z),
    (1 <= k <= N)%nat /\ Rabs (INR k * alpha - IZR m) < / INR N.
Proof.
  intros HN.
  assert (HNpos : 0 < INR N) by (apply lt_0_INR; lia).
  destruct (@pigeonhole_bins (bin N alpha) N) as (i & j & Hij & Hbin).
  { intros i _. unfold bin.
    destruct (@bin_bounds N alpha i HN) as [Hb _]. lia. }
  destruct (@bin_bounds N alpha i HN) as [Hbi Hxi].
  destruct (@bin_bounds N alpha j HN) as [Hbj Hxj].
  unfold bin in Hbin. apply Z2Nat.inj in Hbin; try lia.
  rewrite Hbin in Hxi.
  exists (j - i)%nat, (Int_part (INR j * alpha) - Int_part (INR i * alpha))%Z.
  split; [lia|].
  rewrite minus_INR, minus_IZR by lia.
  unfold frac_part in Hxi, Hxj.
  set (a := INR j * alpha - IZR (Int_part (INR j * alpha))) in *.
  set (b := INR i * alpha - IZR (Int_part (INR i * alpha))) in *.
  replace ((INR j - INR i) * alpha -
           (IZR (Int_part (INR j * alpha)) - IZR (Int_part (INR i * alpha))))
    with (a - b) by (unfold a, b; ring).
  assert (Hdiff : -1 < INR N * (a - b) < 1) by lra.
  apply Rabs_def1.
  - apply Rmult_lt_reg_l with (INR N); [assumption|].
    rewrite Rinv_r by lra. lra.
  - apply Rmult_lt_reg_l with (INR N); [assumption|].
    replace (INR N * - / INR N) with (- (INR N * / INR N)) by ring.
    rewrite Rinv_r by lra. lra.
Qed.

(** X24. In exact arithmetic the loop of [screw_group] always stops: with
    a near-integer test of tolerance [atol >= 1/N] ([N >= 1]; the program's
    tolerance 1e-8 gives [N = 10^8]), for every angle, every nonzero
    [trans] and every [origin], [screw_group] returns a group of at most
    [N] elements within [N] iterations. *)
Theorem screw_group_terminates
        (atol : R) (N : Z) (angle : R) (trans origin : Vec3) :
  (1 <= N)%Z -> / IZR N <= atol -> trans <> zero3 ->
  exists g,
    (1 <= List.length (elems g) <= Z.to_nat N)%nat /\
    forall fuel, (Z.to_nat N <= fuel)%nat ->
      axial.screw_group (is_approx_int_tol atol) fuel angle trans origin = Some (Ok g).
Proof.
  intros HN Hatol Ht.
  destruct (@dirichlet (angle / 360) (Z.to_nat N)) as (k & m & Hk & Hclose); [lia|].
  rewrite !INR_IZR_INZ, Z2Nat.id in Hclose by lia.
  destruct (@first_index (fun i => is_approx_int_tol atol (IZR i * (angle / 360)))
                         (k - 1) 1%Z) as (k' & Hk' & Pk' & Hmin).
  { replace (1 + Z.of_nat (k - 1))%Z with (Z.of_nat k) by lia.
    apply is_approx_int_tol_spec. exists m. lra. }
  eexists. split; [|intros fuel Hfuel].
  2: { apply (@screw_group_closes_exact (is_approx_int_tol atol) angle trans origin k');
       try assumption; lia. }
  cbn [elems List.length]. rewrite length_map, length_range. lia.
Qed.

End Termination.

(** ** The further properties at concrete inputs *)

Section MoreInstances.
Local Open Scope R_scope.
Local Abbreviation vec := (@mkV RScalar).
Local Abbreviation scale := (@vscale RScalar).

Lemma vsub_z_z : np_dot (vec 0 0 1) (vsub (vec 1 0 1) (vec 0 0 1)) = 0.
Proof. unfold_la. lra. Qed.

Lemma rotation_whole_turns_witness :
  exists r rk r360,
    axial.rotation 90 (vec 0 0 1) = Ok r /\
    axial.rotation (90 + 360 * 2) (vec 0 0 1) = Ok rk /\
    axial.rotation 360 (vec 0 0 1) = Ok r360 /\
    linear_part rk = linear_part r /\
    linear_part r360 = np_eye3.
Proof.
  destruct (@rotation_whole_turns 90 2 (vec 0 0 1) z_axis_nonzero)
    as (r & rk & r0 & r360 & Hr & Hrk & _ & Hr360 & H & _ & H360).
  exists r, rk, r360. repeat split; assumption.
Defined.

Lemma rotation_angles_add_witness :
  exists ra rb rab,
    axial.rotation 90 (vec 0 0 1) = Ok ra /\
    axial.rotation 30 (vec 0 0 1) = Ok rb /\
    axial.rotation (90 + 30) (vec 0 0 1) = Ok rab /\
    matmul (linear_part ra) (linear_part rb) = linear_part rab.
Proof. exact (@rotation_angles_add 90 30 (vec 0 0 1) z_axis_nonzero). Defined.

Lemma rotation_opposite_angle_witness :
  exists r r',
    axial.rotation 90 (vec 0 0 1) = Ok r /\
    axial.rotation (- 90) (vec 0 0 1) = Ok r' /\
    linear_part r' = transpose (linear_part r) /\
    matmul (linear_part r') (linear_part r) = np_eye3.
Proof. exact (@rotation_opposite_angle 90 (vec 0 0 1) z_axis_nonzero). Defined.

Lemma rotation_axis_need_not_be_normalised_witness :
  exists r,
    axial.rotation 90 (vec 0 0 1) = Ok r /\
    axial.rotation 90 (scale 5 (vec 0 0 1)) = Ok r.
Proof.
  destruct (@rotation_axis_need_not_be_normalised 90 5 (vec 0 0 1) z_axis_nonzero)
    as (r & _ & Hr & _ & Hpos & _).
  exists r. split; [exact Hr|]. apply Hpos. lra.
Defined.

Lemma rotation_is_proper_and_fixes_axis_witness :
  exists r,
    axial.rotation 90 (vec 0 0 1) = Ok r /\
    matvec (linear_part r) (vec 0 0 1) = vec 0 0 1 /\
    det3 (linear_part r) = 1.
Proof.
  destruct (@rotation_is_proper_and_fixes_axis 90 (vec 0 0 1) (vec 1 0 0) (vec 0 1 0)
              z_axis_nonzero) as (r & Hr & Hfix & _ & Hdet).
  exists r. repeat split; assumption.
Defined.

Lemma reflection_is_a_mirror_witness :
  exists W,
    axial.reflection (to_list (vec 0 0 1)) = Ok (PGSymmetry W None) /\
    matvec W (vec 0 0 1) = vneg (vec 0 0 1) /\
    matvec W (vec 1 0 0) = vec 1 0 0.
Proof.
  destruct (@reflection_is_a_mirror (vec 0 0 1) (vec 1 0 0) z_axis_nonzero)
    as (W & HW & Hneg & Hfix).
  exists W. repeat split; try assumption. apply Hfix. exact dot_z_x.
Defined.

Lemma reflection_is_an_involution_witness :
  exists W,
    axial.reflection (to_list (vec 0 0 1)) = Ok (PGSymmetry W None) /\
    matmul W W = np_eye3.
Proof.
  destruct (@reflection_is_an_involution (vec 0 0 1) z_axis_nonzero)
    as (W & HW & Hsq & _).
  now exists W.
Defined.

Lemma reflection_axis_need_not_be_normalised_witness :
  exists m,
    axial.reflection (to_list (vec 0 0 1)) = Ok m /\
    axial.reflection (to_list (scale (-3) (vec 0 0 1))) = Ok m.
Proof.
  apply reflection_axis_need_not_be_normalised; [exact z_axis_nonzero|lra].
Defined.

Lemma rotoreflections_compose_to_rotations_witness :
  exists sa rab,
    axial.rotoreflection 90 (vec 0 0 1) = Ok sa /\
    axial.rotation (90 + 90) (vec 0 0 1) = Ok rab /\
    matmul (linear_part sa) (linear_part sa) = linear_part rab.
Proof.
  destruct (@rotoreflections_compose_to_rotations 90 90 (vec 0 0 1) z_axis_nonzero)
    as (W & sa & sb & ra & rab & _ & Hsa & Hsb & _ & Hrab & _ & H & _).
  exists sa, rab. split; [exact Hsa|]. split; [exact Hrab|].
  rewrite Hsa in Hsb. injection Hsb as <-. exact H.
Defined.

Lemma S_elements_are_powers_of_the_generator_witness :
  exists g s,
    axial.S pairwise_products 4 (vec 0 0 1) = Ok g /\
    axial.rotoreflection (360 / 4) (vec 0 0 1) = Ok s /\
    linear_part (nth 3 (elems g) Identity) = mpow (linear_part s) 3.
Proof.
  destruct (@S_elements_are_powers_of_the_generator pairwise_products 4 (vec 0 0 1))
    as (g & s & Hg & Hs & _ & Hpow).
  - reflexivity.
  - lia.
  - exact z_axis_nonzero.
  - exists g, s. split; [exact Hg|]. split; [exact Hs|]. apply Hpow. cbn. lia.
Defined.

Lemma C_elements_are_powers_of_the_generator_witness :
  exists g r,
    axial.C 4 (vec 0 0 1) = Ok g /\
    axial.rotation (360 / 4) (vec 0 0 1) = Ok r /\
    linear_part (nth 3 (elems g) Identity) = mpow (linear_part r) 3.
Proof.
  destruct (@C_elements_are_powers_of_the_generator 4 (vec 0 0 1))
    as (g & r & Hg & Hr & Hpow).
  - lia.
  - exact z_axis_nonzero.
  - exists g, r. split; [exact Hg|]. split; [exact Hr|]. apply Hpow. cbn. lia.
Defined.

Lemma S_2_is_the_inversion_group_witness :
  exists s i,
    axial.rotoreflection 180 (vec 0 0 1) = Ok s /\
    @axial.inversion RScalar = Ok i /\
    axial.S pairwise_products 2 (vec 0 0 1) = Ok (mkPointGroup [Identity; s] 3) /\
    linear_part s = linear_part i.
Proof.
  exact (@S_2_is_the_inversion_group pairwise_products (vec 0 0 1) z_axis_nonzero).
Defined.

Lemma screw_axis_passes_through_origin_witness :
  exists W w,
    axial.screw 90 (vec 0 0 1) (vec 1 0 0) = Ok (PGSymmetry W (Some w)) /\
    affine W w (vadd (vec 1 0 0) (scale 2 (vec 0 0 1))) =
    vadd (vadd (vec 1 0 0) (scale 2 (vec 0 0 1))) (vec 0 0 1).
Proof.
  exact (@screw_axis_passes_through_origin 90 2 (vec 0 0 1) (vec 1 0 0) z_axis_nonzero).
Defined.

Lemma glide_mirrors_and_translates_witness :
  exists W w,
    axial.glide (vec 0 0 1) (vec 1 0 0) (vec 0 0 1) = Ok (PGSymmetry W (Some w)) /\
    affine W w (vec 1 0 1) = vadd (vec 1 0 1) (vec 1 0 0) /\
    affine W w (affine W w (vec 0 0 0)) = vadd (vec 0 0 0) (scale 2 (vec 1 0 0)).
Proof.
  destruct (@glide_mirrors_and_translates (vec 0 0 1) (vec 1 0 0) (vec 0 0 1)
              (vec 1 0 1) (vec 0 0 0) z_axis_nonzero dot_z_x)
    as (W & w & Hg & Hplane & Htwice).
  exists W, w. repeat split; try assumption. apply Hplane. exact vsub_z_z.
Defined.

Lemma screw_group_elements_are_successive_products_witness :
  exists W1 w1 Wi wi,
    axial.screw 90 (vec 0 0 1) (vec 1 0 0) = Ok (PGSymmetry W1 (Some w1)) /\
    axial.screw (2 * 90) (scale 2 (vec 0 0 1)) (vec 1 0 0) =
      Ok (PGSymmetry Wi (Some wi)) /\
    axial.screw (IZR (2 + 1) * 90) (scale (IZR (2 + 1)) (vec 0 0 1)) (vec 1 0 0) =
      Ok (PGSymmetry (matmul W1 Wi) (Some (affine W1 w1 wi))).
Proof.
  apply (@screw_group_elements_are_successive_products 90 (vec 0 0 1) (vec 1 0 0) 2).
  - lia.
  - exact z_axis_nonzero.
Defined.

Lemma screw_at_the_closing_index_is_a_translation_witness :
  axial.screw (4 * 90) (scale 4 (vec 0 0 1)) (vec 1 0 0) =
  Ok (PGSymmetry np_eye3 (Some (scale 4 (vec 0 0 1)))).
Proof.
  apply (@screw_at_the_closing_index_is_a_translation 90 (vec 0 0 1) (vec 1 0 0) 4 1).
  - lia.
  - exact z_axis_nonzero.
  - lra.
Defined.

Lemma D_twofold_axis_reverses_the_principal_axis_witness :
  exists h,
    axial.rotation 180 (vec 1 0 0) = Ok h /\
    axial.C 2 (vec 1 0 0) = Ok (mkPointGroup [Identity; h] 3) /\
    matvec (linear_part h) (vec 0 0 1) = vneg (vec 0 0 1).
Proof.
  apply (@D_twofold_axis_reverses_the_principal_axis (vec 0 0 1) (vec 1 0 0)).
  - exact x_axis_nonzero.
  - exact dot_z_x.
Defined.

Lemma Dd_takes_the_direct_branch_of_S_witness :
  exists m ops,
    axial.reflection (to_list (vec 1 0 0)) = Ok m /\
    List.length ops = 3%nat /\
    axial.Dd pairwise_products 2 (vec 0 0 1) (vec 1 0 0) =
    Ok (pairwise_products (mkPointGroup [Identity; m] 3)
                          (mkPointGroup (Identity :: ops) 3)).
Proof.
  destruct (@Dd_takes_the_direct_branch_of_S pairwise_products 2
              (vec 0 0 1) (vec 1 0 0) z_axis_nonzero x_axis_nonzero isclose_z_x)
    as (m & ops & Hm & Hops & HDd).
  exists m, ops. split; [exact Hm|]. split; [|exact HDd].
  apply Forall2_length in Hops. rewrite <- Hops. reflexivity.
Defined.

Lemma cyclic_constructors_accept_every_index_witness :
  group_size (axial.S pairwise_products 0 (vec 0 0 0)) = Some 1%nat /\
  group_size (axial.S pairwise_products 6 (vec 0 0 1)) = Some 6%nat.
Proof.
  split.
  - apply (proj2 (@cyclic_constructors_accept_every_index pairwise_products
                    0 (vec 0 0 0) (or_introl (Z.le_0_1)))).
    reflexivity.
  - apply (proj2 (@cyclic_constructors_accept_every_index pairwise_products
                    6 (vec 0 0 1) (or_intror z_axis_nonzero))).
    reflexivity.
Defined.

Lemma reflection_group_dimension_check_witness :
  @axial.reflection_group RScalar [1; 0] = Raise (ValueError axial.reflection_msg) /\
  exists m, @axial.reflection_group RScalar [0; 0; 1] =
            Ok (mkPointGroup [Identity; m] 3).
Proof.
  destruct reflection_group_dimension_check as (Hwrong & Hright).
  split.
  - apply Hwrong. cbn. lia.
  - destruct (Hright (vec 0 0 1) z_axis_nonzero) as (m & _ & Hm).
    now exists m.
Defined.

Lemma screw_group_180_closes :
  axial.screw_group (is_approx_int_tol (/ 100000000)) 2 180 (vec 0 0 1) (vec 0 0 0) =
  Some (Ok (mkPointGroup
              [Identity; @screw_op RScalar (1 * 180) (scale 1 (vec 0 0 1)) (vec 0 0 0)]
              3)).
Proof.
  rewrite (@screw_group_closes RScalar (is_approx_int_tol (/ 100000000)) 180
             (vec 0 0 1) (vec 0 0 0)
             (fun i => @screw_op RScalar (IZR i * 180) (scale (IZR i) (vec 0 0 1))
                         (vec 0 0 0)) 2).
  - reflexivity.
  - lia.
  - intros j Hj. assert (j = 1%Z) as -> by lia. split.
    + rewrite closes_at_exact. replace (1 * (180 / 360)) with (/ 2) by lra.
      apply is_approx_int_tol_half. lra.
    + apply nth_screw_returns; [lia|exact z_axis_nonzero].
  - rewrite closes_at_exact. replace (2 * (180 / 360)) with 1 by lra.
    apply (is_approx_int_tol_IZR 1). lra.
  - cbn. lia.
Qed.

Lemma screw_group_result_shape_witness :
  axial.screw_group (is_approx_int_tol (/ 100000000)) 7 180 (vec 0 0 1) (vec 0 0 0) =
  Some (Ok (mkPointGroup
              [Identity; @screw_op RScalar (1 * 180) (scale 1 (vec 0 0 1)) (vec 0 0 0)]
              3)).
Proof.
  apply (@screw_group_result_shape RScalar (is_approx_int_tol (/ 100000000)) 2 180
           (vec 0 0 1) (vec 0 0 0) _ screw_group_180_closes).
  lia.
Defined.

Lemma screw_group_terminates_witness :
  exists g,
    (1 <= List.length (elems g) <= Z.to_nat 100000000)%nat /\
    forall fuel, (Z.to_nat 100000000 <= fuel)%nat ->
      axial.screw_group (is_approx_int_tol (/ 100000000)) fuel (360 * sqrt 2)
        (vec 0 0 1) (vec 0 0 0) = Some (Ok g).
Proof.
  apply screw_group_terminates; [lia|lra|exact z_axis_nonzero].
Defined.

End MoreInstances.

Lemma screw_group_with_nan_angle_is_rejected_witness :
  axial.screw_group (num := Float64Scalar (fun x => x) (fun x => x))
    (float_is_approx_int 0x1.5798ee2308c3ap-27) 1000 nan
    (@mkV (Float64Scalar (fun x => x) (fun x => x)) 0%float 0%float 1%float)
    (@mkV (Float64Scalar (fun x => x) (fun x => x)) 0%float 0%float 0%float)
  = Some (Raise (ValueError orthogonal_msg)).
Proof.
  apply screw_group_with_nan_angle_is_rejected; try reflexivity. lia.
Defined.

Lemma zero_axis_is_rejected_by_the_constructor_witness :
  axial.rotation (num := Float64Scalar (fun x => x) (fun x => x)) 90%float
    (@mkV (Float64Scalar (fun x => x) (fun x => x)) 0%float 0%float 0%float)
  = Raise (ValueError orthogonal_msg) /\
  axial.glide (num := Float64Scalar (fun x => x) (fun x => x))
    (@mkV (Float64Scalar (fun x => x) (fun x => x)) 0%float 0%float 0%float)
    (@mkV (Float64Scalar (fun x => x) (fun x => x)) 1%float 0%float 0%float)
    (@mkV (Float64Scalar (fun x => x) (fun x => x)) 0%float 0%float 0%float)
  = Raise (ValueError orthogonal_msg).
Proof.
  destruct (@zero_axis_is_rejected_by_the_constructor (fun x => x) (fun x => x) 90%float
              (@mkV (Float64Scalar (fun x => x) (fun x => x)) 1%float 0%float 0%float)
              (@mkV (Float64Scalar (fun x => x) (fun x => x)) 0%float 0%float 0%float))
    as (Hrot & _ & _ & _ & _ & Hglide).
  split; [exact Hrot|]. apply Hglide. reflexivity.
Defined.
